(** * Sequoia: the vectorized environment coordinator

    A shallow embedding of
    [common/gym_wrappers/batch_env/async_vector_env.py]: the [apply]
    subsystem of [AsyncVectorEnv], its attribute proxy, and the helper
    [set_wrapper_attribute], followed by the properties the specification
    states about them. *)

From Stdlib Require Import Ascii String.
From stdpp Require Import base option list gmap strings numbers sorting.

Open Scope string_scope.
Open Scope nat_scope.
Set Warnings "-register-all".

(** ** Python values and objects *)

(** Object identities.  Two references are the same object exactly when
    their locations are equal. *)
Definition loc := nat.

(** The values that travel through the pipes or sit in attributes. *)
Inductive value :=
  | VNone
  | VBool (b : bool)
  | VInt (n : Z)
  | VStr (s : string)
  | VList (vs : list value)
  | VRef (l : loc)
  | VMethod (self : loc) (func : string)
  | VType (cls : string).

(** An object: its class name, its attribute table (what the instance and
    its class define; a bound method is an entry holding a [VMethod]),
    and whether its class derives from [gym.Wrapper], whose [__getattr__]
    hands the lookup of a missing attribute on to [self.env]. *)
Record obj :=
  Obj { cls : string; attrs : gmap string value; is_wrapper : bool }.

(** [inspect.ismethod]. *)
Definition ismethod (v : value) : bool :=
  match v with VMethod _ _ => true | _ => false end.

(** Truth value of a Python value, as [all] and [if] test it. *)
Definition truthy (v : value) : bool :=
  match v with
  | VNone => false
  | VBool b => b
  | VInt n => negb (n =? 0)%Z
  | VStr s => negb (String.eqb s "")
  | VList vs => match vs with [] => false | _ => true end
  | _ => true
  end.

(** [name.startswith("_")]. *)
Definition startswith_underscore (name : string) : bool :=
  match name with
  | String c _ => Ascii.eqb c "_"%char
  | EmptyString => false
  end.

(** What looking an attribute up comes to: its value, [AttributeError],
    or [RecursionError]. *)
Inductive lookup :=
  | Found (x : value)
  | Missing
  | Recursion.

(** The attribute lookup behind [getattr] and [hasattr].  The table of
    the object is searched first.  On a miss, an object whose class
    derives from [gym.Wrapper] runs the library's

      def __getattr__(self, name):
          if name.startswith("_"):
              raise AttributeError(...)
          return getattr(self.env, name)

    so the lookup of a public name goes on in [self.env]; reading
    [self.env] when the table has no [env] enters [__getattr__] again
    without end.  [seen] lists the wrappers this lookup has already gone
    through: coming back to one of them means the calls never bottom out,
    which Python ends with [RecursionError].  Values that are not
    references to a live object carry no attributes in this model.
    [None] means the fuel ran out. *)
Fixpoint lookup_attr (fuel : nat) (h : gmap loc obj) (v : value)
    (name : string) (seen : list loc) : option lookup :=
  match fuel with
  | O => None
  | S fuel' =>
      match v with
      | VRef l =>
          match h !! l with
          | Some o =>
              match attrs o !! name with
              | Some x => Some (Found x)
              | None =>
                  if negb (is_wrapper o) || startswith_underscore name
                  then Some Missing
                  else if bool_decide (l ∈ seen) then Some Recursion
                  else match attrs o !! "env" with
                       | Some inner =>
                           lookup_attr fuel' h inner name (seen ++ [l])
                       | None => Some Recursion
                       end
              end
          | None => Some Missing
          end
      | _ => Some Missing
      end
  end.

(** The lookup of [name] on [v].  A lookup goes through no wrapper twice,
    so the fuel is never used up ([lookup_attr_total]). *)
Definition lookup_attribute (h : gmap loc obj) (v : value) (name : string)
  : lookup :=
  default Recursion (lookup_attr (S (size h)) h v name []).

(** [hasattr(v, name)] where the lookup answers: true when it finds the
    attribute, false on [AttributeError]. *)
Definition hasattr (h : gmap loc obj) (v : value) (name : string) : bool :=
  match lookup_attribute h v name with Found _ => true | _ => false end.

(** [getattr(v, name)]; [None] stands for the lookup raising. *)
Definition getattr (h : gmap loc obj) (v : value) (name : string) : option value :=
  match lookup_attribute h v name with Found x => Some x | _ => None end.

(** [setattr(v, name, x)]: the attribute goes into the object's own
    table; [None] stands for [AttributeError] (the target is not an
    object). *)
Definition setattr (h : gmap loc obj) (v : value) (name : string) (x : value)
  : option (gmap loc obj) :=
  match v with
  | VRef l =>
      match h !! l with
      | Some o =>
          Some (<[l := Obj (cls o) (<[name := x]> (attrs o)) (is_wrapper o)]> h)
      | None => None
      end
  | _ => None
  end.

(** [type(v)]. *)
Definition type_of (h : gmap loc obj) (v : value) : value :=
  match v with
  | VNone => VType "NoneType"
  | VBool _ => VType "bool"
  | VInt _ => VType "int"
  | VStr _ => VType "str"
  | VList _ => VType "list"
  | VRef l => match h !! l with Some o => VType (cls o) | None => VType "object" end
  | VMethod _ _ => VType "method"
  | VType _ => VType "type"
  end.

(** What running a piece of Python on the worker side can do. *)
Inductive result (A : Type) :=
  | Ok (a : A)
  | Exc (err : value)
  | Diverge.
Arguments Ok {A} a.
Arguments Exc {A} err.
Arguments Diverge {A}.

(** ** [set_wrapper_attribute] *)

(** The [while] loop of [set_wrapper_attribute]: [env] is the current
    object, [wrappers] the identities already seen.  The three tests of
    the loop condition are made in the order written; a [RecursionError]
    out of [hasattr] leaves the function.  [Ok] carries the value of [env]
    when the loop exits; [Diverge] means the fuel ran out. *)
Fixpoint set_wrapper_loop (fuel : nat) (h : gmap loc obj) (name : string)
    (env : value) (wrappers : list loc) : result value :=
  match fuel with
  | O => Diverge
  | S fuel' =>
      match lookup_attribute h env name with
      | Recursion => Exc (VStr "RecursionError")
      | Found _ => Ok env
      | Missing =>
          match lookup_attribute h env "env" with
          | Recursion => Exc (VStr "RecursionError")
          | Missing => Ok env
          | Found inner =>
              match env with
              | VRef l =>
                  if bool_decide (l ∈ wrappers) then Ok env
                  else set_wrapper_loop fuel' h name inner (wrappers ++ [l])
              | _ => Ok env
              end
          end
      end
  end.

(** [set_wrapper_attribute(env, name, value)]: returns the updated heap
    and [type(env)] of the object that received the attribute. *)
Definition set_wrapper_attribute (h : gmap loc obj) (env : value)
    (name : string) (x : value) : result (gmap loc obj * value) :=
  match set_wrapper_loop (S (size h)) h name env [] with
  | Diverge => Diverge
  | Exc err => Exc err
  | Ok target =>
      match setattr h target name x with
      | Some h' => Ok (h', type_of h' target)
      | None => Exc (VStr "AttributeError")
      end
  end.

(** The object reached after [k] steps along the [env] links. *)
Fixpoint nth_env (h : gmap loc obj) (env : value) (k : nat) : option value :=
  match k with
  | O => Some env
  | S k' => inner ← getattr h env "env"; nth_env h inner k'
  end.

(** The [for name, value in names_and_values.items()] loop of
    [set_wrapper_attributes]: the heap reached and the [results] dict
    (name to type), built up from [results]. *)
Fixpoint set_wrapper_attributes_loop (h : gmap loc obj) (env : value)
    (names_and_values : list (string * value)) (results : gmap string value)
  : gmap loc obj * result (gmap string value) :=
  match names_and_values with
  | [] => (h, Ok results)
  | (name, x) :: rest =>
      match set_wrapper_attribute h env name x with
      | Ok (h', ty) =>
          set_wrapper_attributes_loop h' env rest (<[name := ty]> results)
      | Exc err => (h, Exc err)
      | Diverge => (h, Diverge)
      end
  end.

(** [set_wrapper_attributes(env, **names_and_values)], with [results] the
    dict the loop starts from (empty in the source): the keyword
    arguments are the items of the dict, in order.  A keyword named [env]
    collides with the positional parameter, and the call raises
    [TypeError] before the body runs. *)
Definition set_wrapper_attributes (h : gmap loc obj) (env : value)
    (names_and_values : list (string * value)) (results : gmap string value)
  : gmap loc obj * result (gmap string value) :=
  if bool_decide ("env" ∈ names_and_values.*1) then (h, Exc (VStr "TypeError"))
  else set_wrapper_attributes_loop h env names_and_values results.

(** ** Units of work, commands and workers *)

(** The environment instance a worker owns: an object graph and the
    outermost object (the value bound to [env] in a unit of work). *)
Record Env := MkEnv { heap : gmap loc obj; this : loc }.

(** A unit of work: applied to the worker's environment it leaves the
    environment in some state and returns, raises, or never finishes. *)
Definition Work := Env → Env * result value.

(** [(Commands.apply, function)], the only message this file sends. *)
Inductive Command := Apply (function : Work).

(** A reply [(value, success)]. *)
Definition Reply : Type := value * bool.

(** Modelled from the spec: the worker module ([custom_worker]) is not
    part of the sources.  One turn of the worker's read-dispatch-write
    cycle: the unit of work is invoked with the local environment as its
    sole argument; a raised failure becomes [(error description, false)]
    and the worker stays in service.  [None]: the unit of work never
    finishes, so no reply is ever written. *)
Definition worker_step (env : Env) (cmd : Command) : option (Env * Reply) :=
  match cmd with
  | Apply function =>
      match function env with
      | (env', Ok v) => Some (env', (v, true))
      | (env', Exc err) => Some (env', (err, false))
      | (_, Diverge) => None
      end
  end.

(** The parent end of a pipe together with the worker process behind it.
    [w_pending] holds, in order, the commands sent whose replies the parent
    has not read yet (the channel is FIFO); [w_latency] is how long the
    worker takes to have the next reply on the pipe, [None] when it never
    will. *)
Record Worker := MkWorker {
  w_env : Env;
  w_pending : list Command;
  w_latency : option nat
}.

(** [pipe.send(cmd)]. *)
Definition pipe_send (cmd : Command) (w : Worker) : Worker :=
  MkWorker (w_env w) (w_pending w ++ [cmd]) (w_latency w).

(** [pipe.poll(t)]: is there something to read within [t]? *)
Definition pipe_poll (t : nat) (w : Worker) : bool :=
  match w_pending w, w_latency w with
  | cmd :: _, Some d =>
      bool_decide (d ≤ t) &&
      match worker_step (w_env w) cmd with Some _ => true | None => false end
  | _, _ => false
  end.

(** [pipe.recv()]: blocks until the oldest outstanding reply is there;
    [None] when it blocks for ever. *)
Definition pipe_recv (w : Worker) : option (Reply * Worker) :=
  match w_pending w, w_latency w with
  | cmd :: rest, Some _ =>
      match worker_step (w_env w) cmd with
      | Some (env', r) => Some (r, MkWorker env' rest (w_latency w))
      | None => None
      end
  | _, _ => None
  end.

(** ** The coordinator *)

(** [AsyncState] extended with [ExtendedAsyncState.WAITING_APPLY]. *)
Inductive AsyncState := DEFAULT | WAITING_RESET | WAITING_STEP | WAITING_APPLY.

Global Instance AsyncState_eq_dec : EqDecision AsyncState.
Proof. solve_decision. Defined.

(** The [.value] of a state. *)
Definition state_value (s : AsyncState) : string :=
  match s with
  | DEFAULT => "default"
  | WAITING_RESET => "reset"
  | WAITING_STEP => "step"
  | WAITING_APPLY => "apply"
  end.

Inductive exn :=
  | ClosedEnvironmentError
  | AlreadyPendingCallError (call : string)
  | NoAsyncCallError (call : string)
  | AssertionError (msg : string)
  | TimeoutError
  | RemoteExecutionError (worker : nat)
  | AttributeError (name : string)
  | IndexError
  | ValueError.

(** The fields of [AsyncVectorEnv] this file reads and writes. *)
Record AsyncVectorEnv := MkVec {
  closed : bool;
  _state : AsyncState;
  expects_result : list bool;
  parent_pipes : list Worker
}.

Definition num_envs (c : AsyncVectorEnv) : nat := length (parent_pipes c).

(** How a call on the coordinator ends. *)
Inductive outcome (A : Type) :=
  | Return (a : A)
  | Raise (e : exn)
  | Hang.
Arguments Return {A} a.
Arguments Raise {A} e.
Arguments Hang {A}.

(** A method of the coordinator: the outcome and the coordinator it
    leaves behind. *)
Definition M (A : Type) : Type := AsyncVectorEnv → outcome A * AsyncVectorEnv.

Definition ret {A} (a : A) : M A := λ c, (Return a, c).
Definition raise {A} (e : exn) : M A := λ c, (Raise e, c).
Definition bind {A B} (m : M A) (k : A → M B) : M B :=
  λ c, match m c with
       | (Return a, c') => k a c'
       | (Raise e, c') => (Raise e, c')
       | (Hang, c') => (Hang, c')
       end.

Notation "x ⇐ m ;; k" := (bind m (λ x, k))
  (at level 100, m at next level, right associativity, only parsing).
Notation "m ;;; k" := (bind m (λ _, k))
  (at level 100, right associativity, only parsing).

(** Modelled from the spec: [_assert_is_running] belongs to the base
    vector environment, which is not part of the sources.  Every call
    requires the workers to be alive: a coordinator that has been closed
    refuses it. *)
Definition _assert_is_running : M unit :=
  λ c, if closed c then (Raise ClosedEnvironmentError, c) else (Return tt, c).

Definition set_state (s : AsyncState) (c : AsyncVectorEnv) : AsyncVectorEnv :=
  MkVec (closed c) s (expects_result c) (parent_pipes c).

(** An entry of the [functions] sequence: a callable, or a placeholder. *)
Inductive entry := Fn (f : Work) | NotCallable (v : value).

Definition callable (e : entry) : bool :=
  match e with Fn _ => true | NotCallable _ => false end.

(** The [functions] argument: one callable, or a sequence of entries. *)
Inductive functions := Single (f : Work) | Sequence (fs : list entry).

(** The [for pipe, function in zip(self.parent_pipes, functions)] loop of
    [apply_async]: the pipes after the sends and the flags appended to
    [expects_result]. *)
Fixpoint apply_async_loop (pipes : list Worker) (fs : list entry)
  : list Worker * list bool :=
  match pipes, fs with
  | pipe :: pipes', function :: fs' =>
      let '(ps, es) := apply_async_loop pipes' fs' in
      match function with
      | Fn f => (pipe_send (Apply f) pipe :: ps, true :: es)
      | NotCallable _ => (pipe :: ps, false :: es)
      end
  | _, _ => (pipes, [])
  end.

Definition apply_async (funcs : functions) : M unit :=
  _assert_is_running ;;;
  λ c,
  if bool_decide (_state c ≠ DEFAULT)
  then (Raise (AlreadyPendingCallError (state_value (_state c))), c) else
  let fs := match funcs with
            | Single f => replicate (num_envs c) (Fn f)
            | Sequence fs => fs
            end in
  if bool_decide (length fs ≠ num_envs c)
  then (Raise (AssertionError "Need a function for each env."), c) else
  let '(pipes, expects) := apply_async_loop (parent_pipes c) fs in
  (Return tt, MkVec (closed c) WAITING_APPLY expects pipes).

(** Modelled from the spec: [_poll] belongs to the base vector
    environment, which is not part of the sources.  With no timeout it
    reports readiness at once (the reads below then block); otherwise
    all addressed channels must be ready within [timeout]. *)
Fixpoint poll_loop (t : nat) (pipes : list Worker) (expects : list bool) : bool :=
  match pipes, expects with
  | pipe :: pipes', need :: expects' =>
      (if need then pipe_poll t pipe else true) && poll_loop t pipes' expects'
  | _, _ => true
  end.

Definition _poll (timeout : option nat) (c : AsyncVectorEnv) : bool :=
  match timeout with
  | None => true
  | Some t => poll_loop t (parent_pipes c) (expects_result c)
  end.

(** Modelled from the spec: [_raise_if_errors] belongs to the base vector
    environment.  It inspects every success flag and, if any is false,
    re-raises the first such failure; [first_failure] is the slot of that
    failure. *)
Fixpoint first_failure (i : nat) (successes : list bool) : option nat :=
  match successes with
  | [] => None
  | true :: rest => first_failure (S i) rest
  | false :: _ => Some i
  end.

Definition _raise_if_errors (successes : list bool) : M unit :=
  match first_failure 0 successes with
  | Some i => raise (RemoteExecutionError i)
  | None => ret tt
  end.

(** The [for pipe, need_result in zip(self.parent_pipes,
    self.expects_result)] loop of [apply_wait]: the pipes after the reads,
    [results] and [successes]; [None] when a [recv] blocks for ever. *)
Fixpoint apply_wait_loop (pipes : list Worker) (expects : list bool)
  : option (list Worker * list value * list bool) :=
  match pipes, expects with
  | pipe :: pipes', need_result :: expects' =>
      if need_result then
        match pipe_recv pipe with
        | None => None
        | Some ((result, success), pipe1) =>
            match apply_wait_loop pipes' expects' with
            | None => None
            | Some (ps, rs, ss) => Some (pipe1 :: ps, result :: rs, success :: ss)
            end
        end
      else
        match apply_wait_loop pipes' expects' with
        | None => None
        | Some (ps, rs, ss) => Some (pipe :: ps, VNone :: rs, true :: ss)
        end
  | _, _ => Some (pipes, [], [])
  end.

Definition apply_wait (timeout : option nat) : M (list value) :=
  _assert_is_running ;;;
  λ c,
  if bool_decide (_state c ≠ WAITING_APPLY)
  then (Raise (NoAsyncCallError (state_value WAITING_APPLY)), c) else
  if negb (_poll timeout c)
  then (Raise TimeoutError, set_state DEFAULT c) else
  match apply_wait_loop (parent_pipes c) (expects_result c) with
  | None => (Hang, c)
  | Some (pipes, results, successes) =>
      (_raise_if_errors successes ;;;
       λ c', (Return results, set_state DEFAULT c'))
        (MkVec (closed c) (_state c) (expects_result c) pipes)
  end.

Definition apply (funcs : functions) (timeout : option nat) : M (list value) :=
  apply_async funcs ;;; apply_wait timeout.

(** ** [apply_at] *)

(** The [index] argument of [apply_at], which is also what a proxy is
    bound to: an [int], or a collection of them. *)
Inductive index := Int (i : Z) | Indices (l : list Z).

(** [l[i]] for a Python [int]; [None] stands for [IndexError]. *)
Definition list_getitem {A} (l : list A) (i : Z) : option A :=
  if bool_decide (0 ≤ i)%Z then l !! Z.to_nat i
  else if bool_decide (- Z.of_nat (length l) ≤ i)%Z
       then l !! Z.to_nat (Z.of_nat (length l) + i)
       else None.

(** [[result for i, result in enumerate(results) if i in indices]], with
    the enumeration starting at [i]. *)
Fixpoint enumerate_select (indices : list Z) (i : nat) (results : list value)
  : list value :=
  match results with
  | [] => []
  | result :: rest =>
      if bool_decide (Z.of_nat i ∈ indices)
      then result :: enumerate_select indices (S i) rest
      else enumerate_select indices (S i) rest
  end.

(** [indices = [index] if isinstance(index, int) else index]. *)
Definition indices_of (idx : index) : list Z :=
  match idx with Int i => [i] | Indices l => l end.

(** [[operation if i in indices else None for i in range(n)]]. *)
Definition operations_at (operation : Work) (indices : list Z) (n : nat)
  : list entry :=
  map (λ i : nat, if bool_decide (Z.of_nat i ∈ indices)
                  then Fn operation else NotCallable VNone)
      (seq 0 n).

(** Applies [operation] to the envs at [index]: a single result for an
    [int], a list of results otherwise. *)
Definition apply_at (operation : Work) (idx : index) : M value :=
  λ c,
  let indices := indices_of idx in
  let operations := operations_at operation indices (num_envs c) in
  (results ⇐ apply (Sequence operations) None ;;
   λ c', if bool_decide (length results ≠ num_envs c')
         then (Raise (AssertionError ""), c') else
         match idx with
         | Int i =>
             match list_getitem results i with
             | Some r => (Return r, c')
             | None => (Raise IndexError, c')
             end
         | Indices _ =>
             (Return (VList (enumerate_select indices 0 results)), c')
         end) c.

(** ** Units of work built by the coordinator *)

(** [hasattr_(obj, name)], as [partial(hasattr_, name=name)]. *)
Definition hasattr_ (name : string) : Work :=
  λ env, (env, Ok (VBool (hasattr (heap env) (VRef (this env)) name))).

(** [str.split(".")]. *)
Fixpoint split_dot (s : string) : list string :=
  match s with
  | EmptyString => [""]
  | String c s' =>
      if Ascii.eqb c "."%char then "" :: split_dot s'
      else match split_dot s' with
           | x :: xs => String c x :: xs
           | [] => [String c ""]
           end
  end.

(** Following a dotted path of attributes from [v]. *)
Fixpoint resolve_attr (h : gmap loc obj) (v : value) (names : list string)
  : option value :=
  match names with
  | [] => Some v
  | n :: names' => v' ← getattr h v n; resolve_attr h v' names'
  end.

(** [operator.attrgetter(name)]. *)
Definition attrgetter (name : string) : Work :=
  λ env,
  match resolve_attr (heap env) (VRef (this env)) (split_dot name) with
  | Some v => (env, Ok v)
  | None => (env, Exc (VStr "AttributeError"))
  end.

(** [partial(set_wrapper_attribute, name=name, value=value)]. *)
Definition set_wrapper_attribute_work (name : string) (x : value) : Work :=
  λ env,
  match set_wrapper_attribute (heap env) (VRef (this env)) name x with
  | Ok (h', ty) => (MkEnv h' (this env), Ok ty)
  | Exc err => (env, Exc err)
  | Diverge => (env, Diverge)
  end.

(** [setattr_(obj, name, value)], as [partial(setattr_, name=..., value=...)]. *)
Definition setattr_ (name : string) (x : value) : Work :=
  λ env,
  match setattr (heap env) (VRef (this env)) name x with
  | Some h' => (MkEnv h' (this env), Ok VNone)
  | None => (env, Exc (VStr "AttributeError"))
  end.



(** ** [__getitem__] and the proxy *)

(** What [coordinator[...]] is subscripted with: an [int], a [slice], a
    list (or integer array), or a boolean array. *)
Inductive key :=
  | KInt (i : Z)
  | KSlice (start stop step : option Z)
  | KList (l : list Z)
  | KMask (mask : list bool).

(** [range(a, b, st)] for [st ≠ 0]. *)
Definition py_range (a b st : Z) : list Z :=
  let n := if bool_decide (0 < st)%Z
           then Z.max 0 ((b - a + st - 1) / st)
           else Z.max 0 ((a - b - st - 1) / (- st)) in
  map (λ k : nat, (a + Z.of_nat k * st)%Z) (seq 0 (Z.to_nat n)).

(** [tuple(range(n))[start:stop:step]]; [None] stands for [ValueError]
    (a zero step). *)
Definition slice_range (start stop step : option Z) (n : Z) : option (list Z) :=
  let st := default 1%Z step in
  if bool_decide (st = 0)%Z then None else
  let lower := if bool_decide (st < 0)%Z then (-1)%Z else 0%Z in
  let upper := if bool_decide (st < 0)%Z then (n - 1)%Z else n in
  let clamp (x : Z) :=
    if bool_decide (x < 0)%Z then Z.max (x + n) lower else Z.min x upper in
  let a := match start with
           | None => if bool_decide (st < 0)%Z then upper else lower
           | Some x => clamp x
           end in
  let b := match stop with
           | None => if bool_decide (st < 0)%Z then lower else upper
           | Some x => clamp x
           end in
  Some (py_range a b st).

(** [np.arange(n)[mask]]: the positions at which [mask] is true. *)
Fixpoint mask_indices (i : nat) (mask : list bool) : list Z :=
  match mask with
  | [] => []
  | b :: rest =>
      if b then Z.of_nat i :: mask_indices (S i) rest
      else mask_indices (S i) rest
  end.

(** [__getitem__]: the proxy is represented by the index it is bound to
    (the index its [apply_at_indices] closes over). *)
Definition __getitem__ (k : key) : M index :=
  λ c,
  match k with
  | KSlice start stop step =>
      match slice_range start stop step (Z.of_nat (num_envs c)) with
      | Some l => (Return (Indices l), c)
      | None => (Raise ValueError, c)
      end
  | KList l => (Return (Indices l), c)
  | KMask mask =>
      if bool_decide (length mask = num_envs c)
      then (Return (Indices (mask_indices 0 mask)), c)
      else (Raise IndexError, c)
  | KInt i => (Return (Int i), c)
  end.

(** What reading an attribute off a proxy gives: the results of the
    round, or a [BatchedMethod(results, apply_methods_fn=apply_at_indices)]. *)
Inductive proxy_attr :=
  | Values (results : value)
  | BatchedMethod (methods : list value) (apply_methods_fn : index).

Module Proxy.

(** Gets the attribute from the corresponding remote env, rather than
    from the proxy object. *)
Definition __getattribute__ (idx : index) (name : string) : M proxy_attr :=
  results ⇐ apply_at (attrgetter name) idx ;;
  match results with
  | VList rs =>
      if forallb ismethod rs then ret (BatchedMethod rs idx)
      else ret (Values results)
  | _ => ret (Values results)
  end.

(** Sets the attribute on the corresponding remote env, rather than on
    the proxy object. *)
Definition __setattr__ (idx : index) (name : string) (x : value) : M value :=
  apply_at (set_wrapper_attribute_work name x) idx.

End Proxy.

(** [AsyncVectorEnv.__getattr__]. *)
Definition __getattr__ (name : string) : M proxy_attr :=
  if bool_decide (name ∈ ["closed"; "_state"]) then ret (Values VNone) else
  env_has_attribute ⇐ apply (Single (hasattr_ name)) None ;;
  if forallb truthy env_has_attribute then
    _assert_is_running ;;;
    (proxy ⇐ __getitem__ (KSlice None None None) ;;
     Proxy.__getattribute__ proxy name)
  else raise (AttributeError name).

(** ** Vocabulary of the statements *)

(** Nothing is outstanding on the pipe and the worker answers. *)
Definition ready (w : Worker) : Prop :=
  w_pending w = [] ∧ is_Some (w_latency w).

(** Slot [i] of a round is in order: a worker that is sent work is
    [ready] and its unit of work finishes (by returning or by raising). *)
Definition slot_ok (w : Worker) (e : entry) : Prop :=
  match e with
  | Fn f => ready w ∧ (f (w_env w)).2 ≠ Diverge
  | NotCallable _ => True
  end.

(** What a round sends to slot [i]. *)
Definition slot_sent (w : Worker) (e : entry) : Worker :=
  match e with
  | Fn f => pipe_send (Apply f) w
  | NotCallable _ => w
  end.

(** The reply slot [i] contributes to a round. *)
Definition slot_reply (w : Worker) (e : entry) : Reply :=
  match e with
  | Fn f =>
      match (f (w_env w)).2 with
      | Ok v => (v, true)
      | Exc err => (err, false)
      | Diverge => (VNone, true)
      end
  | NotCallable _ => (VNone, true)
  end.

(** The worker of slot [i] once its reply has been read. *)
Definition slot_after (w : Worker) (e : entry) : Worker :=
  match e with
  | Fn f => MkWorker (f (w_env w)).1 [] (w_latency w)
  | NotCallable _ => w
  end.

(** A coordinator that is running, idle, and whose workers are all
    [ready]. *)
Definition quiescent (c : AsyncVectorEnv) : Prop :=
  closed c = false ∧ _state c = DEFAULT ∧ Forall ready (parent_pipes c).

(** [f(env_j)] is the value [v]. *)
Definition returns_at (c : AsyncVectorEnv) (f : Work) (j : nat) (v : value)
  : Prop :=
  ∃ w, parent_pipes c !! j = Some w ∧ (f (w_env w)).2 = Ok v.

(** Every worker that [indices] addresses is [ready] and [f] returns on
    its environment. *)
Definition addressed_ok (c : AsyncVectorEnv) (f : Work) (indices : list Z)
  : Prop :=
  ∀ j w, parent_pipes c !! j = Some w → Z.of_nat j ∈ indices →
         ready w ∧ ∃ v, (f (w_env w)).2 = Ok v.




(** How [Proxy.__getattribute__] presents the results of its round. *)
Definition present (idx : index) (results : value) : proxy_attr :=
  match results with
  | VList rs =>
      if forallb ismethod rs then BatchedMethod rs idx else Values results
  | _ => Values results
  end.

(** The loop of [set_wrapper_attribute] stops at [target]: [hasattr]
    finds the attribute there, or finds no [env] to go on with. *)
Definition stops_at (h : gmap loc obj) (name : string) (target : value)
  : Prop :=
  hasattr h target name = true
  ∨ (lookup_attribute h target name = Missing
     ∧ lookup_attribute h target "env" = Missing).

(** The loop of [set_wrapper_attribute] goes on from [e]: [hasattr] finds
    no [name] there, and finds an [env]. *)
Definition goes_on (h : gmap loc obj) (name : string) (e : value) : Prop :=
  lookup_attribute h e name = Missing ∧ hasattr h e "env" = true.

(** No object of the heap is a [gym.Wrapper]. *)
Definition plain (h : gmap loc obj) : Prop :=
  ∀ l o, h !! l = Some o → is_wrapper o = false.

(** ** Sample environments and coordinators *)

(** An environment made of a single object. *)
Definition plain_env (cls : string) (kvs : list (string * value)) : Env :=
  MkEnv {[ 0 := Obj cls (list_to_map kvs) false ]} 0.

(** A worker with nothing outstanding that answers at once. *)
Definition idle_worker (env : Env) : Worker := MkWorker env [] (Some 0).

(** The coordinator as [__init__] leaves it. *)
Definition coordinator (envs : list Env) : AsyncVectorEnv :=
  MkVec false DEFAULT [] (idle_worker <$> envs).

(** A unit of work that raises. *)
Definition failing_work : Work := λ env, (env, Exc (VStr "ValueError")).

Definition env_a : Env := plain_env "A" [("x", VInt 10)].
Definition env_b : Env := plain_env "B" [("x", VInt 11)].
Definition env_c : Env := plain_env "C" [("x", VInt 12)].

Definition env_d : Env := plain_env "D" [("x", VInt 13)].
Definition env_e : Env := plain_env "E" [("x", VInt 14)].

(** An environment without attributes. *)
Definition env_bare : Env := plain_env "Bare" [].

(** An environment whose attribute [step] is a bound method. *)
Definition env_m : Env := plain_env "M" [("step", VMethod 0 "step")].

(** Two plain objects whose [env] attributes point at one another. *)
Definition cyclic_heap : gmap loc obj :=
  {[ 0 := Obj "Outer" {[ "env" := VRef 1 ]} false;
     1 := Obj "Inner" {[ "env" := VRef 0 ]} false ]}.

(** Two [gym.Wrapper]s, each the [env] of the other. *)
Definition cyclic_wrappers : gmap loc obj :=
  {[ 0 := Obj "Outer" {[ "env" := VRef 1 ]} true;
     1 := Obj "Inner" {[ "env" := VRef 0 ]} true ]}.

(** Two [gym.Wrapper]s around an environment; the inner wrapper and the
    environment have [limit]. *)
Definition wrapped_heap : gmap loc obj :=
  {[ 0 := Obj "Outer" {[ "env" := VRef 1 ]} true;
     1 := Obj "Inner" {[ "env" := VRef 2; "limit" := VInt 5 ]} true;
     2 := Obj "Base" {[ "limit" := VInt 9 ]} false ]}.

(** ** The rounds of [apply] *)

Lemma apply_async_loop_spec pipes fs :
  length fs = length pipes →
  apply_async_loop pipes fs = (zip_with slot_sent pipes fs, callable <$> fs).
Proof.
  revert fs. induction pipes as [|w pipes IH]; intros [|e fs] Hlen;
    simplify_eq/=; [done|].
  rewrite (IH fs) by lia. by destruct e.
Qed.

Lemma pipe_recv_sent w f :
  ready w → (f (w_env w)).2 ≠ Diverge →
  pipe_recv (pipe_send (Apply f) w)
  = Some (slot_reply w (Fn f), slot_after w (Fn f)).
Proof.
  intros [Hp [d Hd]] Hf. unfold pipe_recv, pipe_send; simpl.
  rewrite Hp, Hd; simpl.
  destruct (f (w_env w)) as [env' [v|err|]]; simpl in *; done.
Qed.

Lemma apply_wait_loop_spec pipes fs :
  Forall2 slot_ok pipes fs →
  apply_wait_loop (zip_with slot_sent pipes fs) (callable <$> fs)
  = Some (zip_with slot_after pipes fs,
          (zip_with slot_reply pipes fs).*1,
          (zip_with slot_reply pipes fs).*2).
Proof.
  induction 1 as [|w e pipes fs Hok _ IH]; [done|].
  destruct e as [f|x]; csimpl.
  - destruct Hok as [Hr Hf]. fold (pipe_send (Apply f) w).
    rewrite (pipe_recv_sent w f Hr Hf). csimpl.
    destruct ((f (w_env w)).2); rewrite IH; done.
  - by rewrite IH.
Qed.

(** One complete round on a coordinator whose addressed slots are in
    order. *)
Lemma apply_round c fs :
  closed c = false → _state c = DEFAULT →
  Forall2 slot_ok (parent_pipes c) fs →
  apply (Sequence fs) None c =
    let replies := zip_with slot_reply (parent_pipes c) fs in
    let after := zip_with slot_after (parent_pipes c) fs in
    match first_failure 0 (replies.*2) with
    | Some i =>
        (Raise (RemoteExecutionError i),
         MkVec false WAITING_APPLY (callable <$> fs) after)
    | None =>
        (Return (replies.*1), MkVec false DEFAULT (callable <$> fs) after)
    end.
Proof.
  intros Hc Hs Hok. apply Forall2_length in Hok as Hlen.
  unfold apply, apply_async, bind, _assert_is_running. rewrite Hc, Hs. simpl.
  rewrite bool_decide_false by (unfold num_envs; lia).
  rewrite apply_async_loop_spec by done.
  unfold apply_wait, bind, _assert_is_running; simpl. rewrite Hc; simpl.
  rewrite apply_wait_loop_spec by done.
  unfold _raise_if_errors.
  destruct (first_failure 0 _); done.
Qed.

Lemma first_failure_None i ss :
  first_failure i ss = None ↔ Forall (λ b, b = true) ss.
Proof.
  revert i. induction ss as [|[] ss IH]; intros i; simpl.
  - split; [constructor|done].
  - rewrite IH. split; [by constructor|by inversion 1].
  - split; [done|]. inversion 1; done.
Qed.

Lemma first_failure_Some i ss k :
  first_failure i ss = Some k →
  ∃ j, k = i + j ∧ ss !! j = Some false ∧ ∀ j', j' < j → ss !! j' = Some true.
Proof.
  revert i. induction ss as [|[] ss IH]; intros i; simpl; [done| |].
  - intros (j & -> & Hj & Hlt)%IH. exists (S j). split; [lia|]. split; [done|].
    intros [|j'] ?; [done|]. apply Hlt. lia.
  - intros [= <-]. exists 0. split; [lia|]. split; [done|]. lia.
Qed.

Lemma enumerate_select_Forall2 (P : nat → value → Prop) indices i rs :
  (∀ k r, rs !! k = Some r → Z.of_nat (i + k) ∈ indices → P (i + k) r) →
  Forall2 P (filter (λ j : nat, Z.of_nat j ∈ indices) (seq i (length rs)))
          (enumerate_select indices i rs).
Proof.
  revert i. induction rs as [|r rs IH]; intros i HP; simpl; [constructor|].
  assert (Forall2 P (filter (λ j : nat, Z.of_nat j ∈ indices)
                            (seq (S i) (length rs)))
                  (enumerate_select indices (S i) rs)) as Hrest.
  { apply IH. intros k r' Hk Hin.
    replace (S i + k) with (i + S k) in * by lia. by apply HP. }
  rewrite filter_cons. case_bool_decide as Hi.
  - rewrite decide_True by done. constructor; [|done].
    specialize (HP 0 r). rewrite Nat.add_0_r in HP. by apply HP.
  - by rewrite decide_False.
Qed.

(** ** Properties of [apply] *)

Lemma apply_wait_loop_unaddressed pipes expects ps rs ss i :
  apply_wait_loop pipes expects = Some (ps, rs, ss) →
  i < length pipes → expects !! i = Some false →
  rs !! i = Some VNone ∧ ss !! i = Some true ∧ ps !! i = pipes !! i.
Proof.
  revert expects ps rs ss i.
  induction pipes as [|w pipes IH]; intros [|b expects] ps rs ss i; simpl;
    try (intros; lia); try done.
  destruct b.
  - destruct (pipe_recv w) as [[[r s] w1]|]; [|done].
    destruct (apply_wait_loop pipes expects) as [[[ps' rs'] ss']|] eqn:E; [|done].
    intros [= <- <- <-] Hi Hx. destruct i as [|i]; [done|]. simpl in *.
    apply (IH _ _ _ _ _ E); [lia|done].
  - destruct (apply_wait_loop pipes expects) as [[[ps' rs'] ss']|] eqn:E; [|done].
    intros [= <- <- <-] Hi Hx. destruct i as [|i]; [done|]. simpl in *.
    apply (IH _ _ _ _ _ E); [lia|done].
Qed.

(** C1.  With three workers, [apply([f, None, g])] returns
    [[f(env0), None, g(env2)]] and records [expects_result = [True, False,
    True]]; [apply_async] records [expects_result[i]] true exactly when
    entry [i] is callable and sends [Apply] to those workers only;
    [apply_wait] gives every unaddressed slot the result [None] with a
    true success flag and reads nothing from its pipe; and for every
    number of workers and every sequence of that length, [apply] returns a
    list of that length holding [None] at every placeholder and the
    value of the unit of work at every other position. *)
Theorem apply_placeholders :
  (∀ w0 w1 w2 (f g : Work) x e0 v0 e2 v2 old,
      ready w0 → ready w2 →
      f (w_env w0) = (e0, Ok v0) → g (w_env w2) = (e2, Ok v2) →
      apply (Sequence [Fn f; NotCallable x; Fn g]) None
            (MkVec false DEFAULT old [w0; w1; w2])
      = (Return [v0; VNone; v2],
         MkVec false DEFAULT [true; false; true]
               [MkWorker e0 [] (w_latency w0); w1;
                MkWorker e2 [] (w_latency w2)]))
  ∧ (∀ c fs,
      closed c = false → _state c = DEFAULT → length fs = num_envs c →
      apply_async (Sequence fs) c
      = (Return tt,
         MkVec false WAITING_APPLY (callable <$> fs)
               (zip_with slot_sent (parent_pipes c) fs)))
  ∧ (∀ pipes expects ps rs ss i,
      apply_wait_loop pipes expects = Some (ps, rs, ss) →
      i < length pipes → expects !! i = Some false →
      rs !! i = Some VNone ∧ ss !! i = Some true ∧ ps !! i = pipes !! i)
  ∧ (∀ c fs,
      closed c = false → _state c = DEFAULT → length fs = num_envs c →
      (∀ i w f, parent_pipes c !! i = Some w → fs !! i = Some (Fn f) →
                ready w ∧ ∃ v, (f (w_env w)).2 = Ok v) →
      ∃ results c',
        apply (Sequence fs) None c = (Return results, c')
        ∧ length results = num_envs c
        ∧ expects_result c' = callable <$> fs
        ∧ (∀ i x, fs !! i = Some (NotCallable x) → results !! i = Some VNone)
        ∧ (∀ i w f, parent_pipes c !! i = Some w → fs !! i = Some (Fn f) →
                    ∃ v, (f (w_env w)).2 = Ok v ∧ results !! i = Some v)).
Proof.
  split; [|split; [|split]].
  - intros w0 w1 w2 f g x e0 v0 e2 v2 old Hr0 Hr2 Hf Hg.
    rewrite apply_round; simpl; try done.
    + by rewrite Hf, Hg.
    + constructor; [by simpl; rewrite Hf|].
      constructor; [done|].
      constructor; [by simpl; rewrite Hg|constructor].
  - intros c fs Hc Hs Hlen.
    unfold apply_async, bind, _assert_is_running. rewrite Hc, Hs. simpl.
    rewrite bool_decide_false by lia.
    by rewrite apply_async_loop_spec, Hc.
  - intros. by eapply apply_wait_loop_unaddressed.
  - intros c fs Hc Hs Hlen Hok.
    assert (Forall2 slot_ok (parent_pipes c) fs) as HF.
    { apply Forall2_same_length_lookup. split; [done|].
      intros i w [f|x] Hw He; [|done].
      destruct (Hok i w f Hw He) as [Hr [v Hv]]. split; [done|].
      by rewrite Hv. }
    assert (∀ i w e, parent_pipes c !! i = Some w → fs !! i = Some e →
                     (slot_reply w e).2 = true) as Hsucc.
    { intros i w [f|x] Hw He; [|done].
      destruct (Hok i w f Hw He) as [_ [v Hv]]. simpl. by rewrite Hv. }
    rewrite apply_round by done. simpl.
    assert (first_failure 0 (zip_with slot_reply (parent_pipes c) fs).*2 = None)
      as ->.
    { apply first_failure_None, Forall_lookup. intros i b Hi.
      apply list_lookup_fmap_Some in Hi as (r & -> & E).
      apply lookup_zip_with_Some in E as (w & e & -> & Hw & He).
      by eapply Hsucc. }
    eexists _, _. split; [done|]. simpl.
    split; [|split; [done|split]].
    + rewrite length_fmap, length_zip_with. unfold num_envs in *. lia.
    + intros i x He.
      destruct (lookup_lt_is_Some_2 (parent_pipes c) i) as [w Hw].
      { apply lookup_lt_Some in He. unfold num_envs in *. lia. }
      rewrite list_lookup_fmap, lookup_zip_with, Hw, He. done.
    + intros i w f Hw He. destruct (Hok i w f Hw He) as [_ [v Hv]].
      exists v. split; [done|].
      rewrite list_lookup_fmap, lookup_zip_with, Hw, He. simpl. by rewrite Hv.
Qed.

(** ** Properties of [apply_at] *)

Lemma apply_at_round c op idx :
  closed c = false → _state c = DEFAULT →
  Forall2 slot_ok (parent_pipes c)
          (operations_at op (indices_of idx) (num_envs c)) →
  apply_at op idx c =
    let fs := operations_at op (indices_of idx) (num_envs c) in
    let replies := zip_with slot_reply (parent_pipes c) fs in
    let after := zip_with slot_after (parent_pipes c) fs in
    match first_failure 0 (replies.*2) with
    | Some i =>
        (Raise (RemoteExecutionError i),
         MkVec false WAITING_APPLY (callable <$> fs) after)
    | None =>
        let c' := MkVec false DEFAULT (callable <$> fs) after in
        match idx with
        | Int i =>
            match list_getitem (replies.*1) i with
            | Some r => (Return r, c')
            | None => (Raise IndexError, c')
            end
        | Indices l => (Return (VList (enumerate_select l 0 (replies.*1))), c')
        end
    end.
Proof.
  intros Hc Hs Hok. unfold apply_at, bind.
  rewrite apply_round by done. simpl.
  destruct (first_failure 0 _); [done|].
  apply Forall2_length in Hok as Hlen.
  rewrite bool_decide_false.
  - by destruct idx.
  - unfold num_envs; simpl.
    rewrite length_fmap, !length_zip_with. lia.
Qed.

Lemma length_operations_at op indices n :
  length (operations_at op indices n) = n.
Proof. unfold operations_at. by rewrite length_map, length_seq. Qed.

Lemma lookup_operations_at op indices n j :
  j < n →
  operations_at op indices n !! j
  = Some (if bool_decide (Z.of_nat j ∈ indices)
          then Fn op else NotCallable VNone).
Proof.
  intros Hj. unfold operations_at.
  change (map ?f ?l) with (f <$> l).
  by rewrite list_lookup_fmap, lookup_seq_lt.
Qed.

Lemma addressed_slots_ok c op indices :
  addressed_ok c op indices →
  Forall2 slot_ok (parent_pipes c) (operations_at op indices (num_envs c)).
Proof.
  intros Hok. apply Forall2_same_length_lookup.
  split; [by rewrite length_operations_at|].
  intros j w e Hw He.
  rewrite lookup_operations_at in He by (by eapply lookup_lt_Some).
  injection He as <-. case_bool_decide as Hin; [|done].
  destruct (Hok j w Hw Hin) as [Hr [v Hv]]. split; [done|]. by rewrite Hv.
Qed.

Lemma addressed_no_failure c op indices :
  addressed_ok c op indices →
  first_failure 0 (zip_with slot_reply (parent_pipes c)
                     (operations_at op indices (num_envs c))).*2 = None.
Proof.
  intros Hok. apply first_failure_None, Forall_lookup. intros j b Hj.
  apply list_lookup_fmap_Some in Hj as (r & -> & E).
  apply lookup_zip_with_Some in E as (w & e & -> & Hw & He).
  rewrite lookup_operations_at in He by (by eapply lookup_lt_Some).
  injection He as <-. case_bool_decide as Hin; [|done].
  destruct (Hok j w Hw Hin) as [_ [v Hv]]. simpl. by rewrite Hv.
Qed.

Lemma addressed_reply c op indices j r :
  (zip_with slot_reply (parent_pipes c)
     (operations_at op indices (num_envs c))).*1 !! j = Some r →
  ∃ w, parent_pipes c !! j = Some w ∧
       r = (slot_reply w (if bool_decide (Z.of_nat j ∈ indices)
                          then Fn op else NotCallable VNone)).1.
Proof.
  intros Hj. apply list_lookup_fmap_Some in Hj as (p & -> & E).
  apply lookup_zip_with_Some in E as (w & e & -> & Hw & He).
  rewrite lookup_operations_at in He by (by eapply lookup_lt_Some).
  injection He as <-. eauto.
Qed.

Lemma filter_agree {A} (P Q : A → Prop) `{!∀ x, Decision (P x)}
    `{!∀ x, Decision (Q x)} (l : list A) :
  (∀ x, x ∈ l → P x ↔ Q x) → filter P l = filter Q l.
Proof.
  induction l as [|x l IH]; intros Hag; [done|].
  rewrite !filter_cons, IH by (intros; apply Hag; by right).
  assert (P x ↔ Q x) as Hx by (apply Hag; by left).
  destruct (decide (P x)), (decide (Q x)); try done; tauto.
Qed.

(** Strictly increasing in-range indices are met in the order given. *)
Lemma filter_seq_increasing (l : list Z) a n :
  StronglySorted Z.lt l →
  Forall (λ x, Z.of_nat a ≤ x < Z.of_nat (a + n))%Z l →
  filter (λ j : nat, Z.of_nat j ∈ l) (seq a n) = Z.to_nat <$> l.
Proof.
  revert a l. induction n as [|n IH]; intros a l Hs Hb.
  - destruct l as [|x l]; [done|]. inversion Hb; lia.
  - simpl. rewrite filter_cons. destruct l as [|x l].
    + rewrite decide_False by (by intros ?%elem_of_nil).
      by rewrite (IH (S a) []) by constructor.
    + apply StronglySorted_inv in Hs as [Hs Hx].
      inversion Hb as [|?? Hbx Hbl]; subst.
      destruct (decide (x = Z.of_nat a)) as [->|Hne].
      * rewrite decide_True by left. csimpl. rewrite Nat2Z.id. f_equal.
        rewrite <- (IH (S a) l Hs).
        -- apply filter_agree. intros j [Hj _]%elem_of_seq.
           rewrite elem_of_cons. split; [|auto]. intros [?|?]; [lia|done].
        -- eapply Forall_impl; [apply Forall_and; split; [exact Hx|exact Hbl]|].
           simpl. lia.
      * rewrite decide_False.
        -- apply (IH (S a) (x :: l)); [by constructor|].
           constructor; [lia|].
           eapply Forall_impl; [apply Forall_and; split; [exact Hx|exact Hbl]|].
           simpl. lia.
        -- rewrite elem_of_cons. intros [?|Hin]; [lia|].
           rewrite Forall_forall in Hx. apply Hx in Hin. lia.
Qed.

(** What [apply_at] returns when the addressed workers are in order. *)
Lemma apply_at_ok c f :
  closed c = false → _state c = DEFAULT →
  (∀ i w v, parent_pipes c !! i = Some w → ready w →
            (f (w_env w)).2 = Ok v →
            (apply_at f (Int (Z.of_nat i)) c).1 = Return v)
  ∧ (∀ l, addressed_ok c f l →
      ∃ vs, (apply_at f (Indices l) c).1 = Return (VList vs)
        ∧ Forall2 (returns_at c f)
            (filter (λ j : nat, Z.of_nat j ∈ l) (seq 0 (num_envs c))) vs
        ∧ (StronglySorted Z.lt l →
           Forall (λ x, 0 ≤ x < Z.of_nat (num_envs c))%Z l →
           Forall2 (λ x v, returns_at c f (Z.to_nat x) v) l vs)).
Proof.
  intros Hc Hs. split.
  - intros i w v Hw Hr Hv.
    assert (addressed_ok c f [Z.of_nat i]) as Hok.
    { intros j w' Hw' ->%list_elem_of_singleton%Nat2Z.inj.
      rewrite Hw in Hw'. injection Hw' as <-. eauto. }
    rewrite (apply_at_round c f (Int (Z.of_nat i)))
      by auto using addressed_slots_ok.
    simpl. rewrite addressed_no_failure by done.
    unfold list_getitem. rewrite bool_decide_true by lia. rewrite Nat2Z.id.
    destruct ((zip_with slot_reply (parent_pipes c)
                 (operations_at f [Z.of_nat i] (num_envs c))).*1 !! i)
      as [r|] eqn:E.
    + apply addressed_reply in E as (w' & Hw' & ->).
      rewrite Hw in Hw'. injection Hw' as <-.
      rewrite bool_decide_true by (by apply list_elem_of_singleton).
      simpl. by rewrite Hv.
    + apply lookup_ge_None in E. apply lookup_lt_Some in Hw.
      rewrite length_fmap, length_zip_with, length_operations_at in E.
      unfold num_envs in E. lia.
  - intros l Hok.
    rewrite (apply_at_round c f (Indices l)) by auto using addressed_slots_ok.
    simpl. rewrite addressed_no_failure by done. simpl.
    eexists. split; [done|].
    assert (Forall2 (returns_at c f)
              (filter (λ j : nat, Z.of_nat j ∈ l) (seq 0 (num_envs c)))
              (enumerate_select l 0
                 (zip_with slot_reply (parent_pipes c)
                    (operations_at f l (num_envs c))).*1)) as HF.
    { assert (length (zip_with slot_reply (parent_pipes c)
                        (operations_at f l (num_envs c))).*1 = num_envs c)
        as Hlen.
      { rewrite length_fmap, length_zip_with, length_operations_at.
        unfold num_envs. lia. }
      rewrite <- Hlen at 1. apply enumerate_select_Forall2.
      intros k r Hk Hin. simpl in *.
      apply addressed_reply in Hk as (w & Hw & ->).
      rewrite bool_decide_true by done.
      destruct (Hok k w Hw Hin) as [_ [v Hv]].
      exists w. split; [done|]. simpl. by rewrite Hv. }
    split; [done|]. intros Hsort Hrange.
    rewrite (filter_seq_increasing l 0 (num_envs c)) in HF by done.
    rewrite Forall2_fmap_l in HF. exact HF.
Qed.

(** C4 (amended).  For a scalar index [i] of a worker, [apply_at(f, i)]
    returns the single value [f(env_i)], not a list.  For an index
    collection it returns the results of the addressed workers in
    increasing worker order, one per addressed worker; that is the order
    the caller gave whenever the indices were given strictly increasing
    and in range (as in [[0, 3]]). *)
Theorem apply_at_unwraps c f :
  closed c = false → _state c = DEFAULT →
  (∀ i w v, parent_pipes c !! i = Some w → ready w →
            (f (w_env w)).2 = Ok v →
            (apply_at f (Int (Z.of_nat i)) c).1 = Return v)
  ∧ (∀ l, addressed_ok c f l →
      ∃ vs, (apply_at f (Indices l) c).1 = Return (VList vs)
        ∧ Forall2 (returns_at c f)
            (filter (λ j : nat, Z.of_nat j ∈ l) (seq 0 (num_envs c))) vs
        ∧ (StronglySorted Z.lt l →
           Forall (λ x, 0 ≤ x < Z.of_nat (num_envs c))%Z l →
           Forall2 (λ x v, returns_at c f (Z.to_nat x) v) l vs)).
Proof. apply apply_at_ok. Qed.

(** ** The call-state machine *)

(** C2.  On a running coordinator, [apply_async] in a state other than
    [DEFAULT] raises [AlreadyPendingCallError] carrying the value of the
    pending state, and [apply_wait] in a state other than [WAITING_APPLY]
    raises [NoAsyncCallError]; in both cases the coordinator is left as
    it was: nothing is sent and the state is unchanged. *)
Theorem misuse_raises c :
  closed c = false →
  (∀ funcs, _state c ≠ DEFAULT →
     apply_async funcs c
     = (Raise (AlreadyPendingCallError (state_value (_state c))), c))
  ∧ (∀ timeout, _state c ≠ WAITING_APPLY →
     apply_wait timeout c = (Raise (NoAsyncCallError "apply"), c)).
Proof.
  intros Hc. split.
  - intros funcs Hs. unfold apply_async, bind, _assert_is_running.
    rewrite Hc. by rewrite bool_decide_true.
  - intros timeout Hs. unfold apply_wait, bind, _assert_is_running.
    rewrite Hc. by rewrite bool_decide_true.
Qed.

Lemma misuse_raises_witness :
  (apply_async (Single (hasattr_ "x"))
     (MkVec false WAITING_STEP [] [idle_worker env_a])
   = (Raise (AlreadyPendingCallError "step"),
      MkVec false WAITING_STEP [] [idle_worker env_a]))
  ∧ (apply_wait None (coordinator [env_a])
     = (Raise (NoAsyncCallError "apply"), coordinator [env_a])).
Proof.
  split.
  - apply (proj1 (misuse_raises (MkVec false WAITING_STEP [] [idle_worker env_a])
                    eq_refl)).
    simpl. discriminate.
  - apply (proj2 (misuse_raises (coordinator [env_a]) eq_refl)).
    simpl. discriminate.
Defined.

(** C3 on the code.  With one worker whose unit of work raises, [apply]
    re-raises the failure and leaves the state at [WAITING_APPLY]; the
    next [apply_async] is then refused. *)
Theorem apply_wait_failure_keeps_state :
  let after := (apply (Single failing_work) None (coordinator [env_a])).2 in
  (apply (Single failing_work) None (coordinator [env_a])).1
  = Raise (RemoteExecutionError 0)
  ∧ _state after = WAITING_APPLY
  ∧ (apply_async (Single (hasattr_ "x")) after).1
    = Raise (AlreadyPendingCallError "apply").
Proof. by vm_compute. Qed.

Lemma poll_loop_false t pipes expects i w :
  pipes !! i = Some w → expects !! i = Some true → pipe_poll t w = false →
  poll_loop t pipes expects = false.
Proof.
  revert expects i. induction pipes as [|p pipes IH]; intros [|b expects] [|i];
    simpl; try done.
  - intros [= ->] [= ->] ->. done.
  - intros Hw He Hp. rewrite (IH expects i) by done. apply andb_false_r.
Qed.

(** C5.  For every timeout [t], if [apply_wait] is called on a running
    coordinator in state [WAITING_APPLY] and some addressed worker has
    nothing to read on its pipe within [t], then [apply_wait] raises
    [TimeoutError] and leaves the state at [DEFAULT]. *)
Theorem apply_wait_timeout c t i w :
  closed c = false → _state c = WAITING_APPLY →
  parent_pipes c !! i = Some w → expects_result c !! i = Some true →
  pipe_poll t w = false →
  apply_wait (Some t) c = (Raise TimeoutError, set_state DEFAULT c)
  ∧ _state (apply_wait (Some t) c).2 = DEFAULT.
Proof.
  intros Hc Hs Hw He Hp.
  assert (apply_wait (Some t) c = (Raise TimeoutError, set_state DEFAULT c))
    as ->; [|done].
  unfold apply_wait, bind, _assert_is_running. rewrite Hc, Hs. simpl.
  by rewrite (poll_loop_false t _ _ i w).
Qed.

Lemma apply_wait_timeout_witness :
  let c := MkVec false WAITING_APPLY [true]
             [MkWorker env_a [Apply (hasattr_ "x")] None] in
  apply_wait (Some 5) c = (Raise TimeoutError, set_state DEFAULT c)
  ∧ _state (apply_wait (Some 5) c).2 = DEFAULT.
Proof.
  apply (apply_wait_timeout _ 5 0 (MkWorker env_a [Apply (hasattr_ "x")] None));
    reflexivity.
Defined.

(** C10.  For the names ["closed"] and ["_state"], [__getattr__] returns
    [None] at once: whatever the coordinator and its workers are, nothing
    is raised and the coordinator is left untouched (no worker is
    probed). *)
Theorem getattr_reserved_names c :
  __getattr__ "closed" c = (Return (Values VNone), c)
  ∧ __getattr__ "_state" c = (Return (Values VNone), c).
Proof. done. Qed.

(** ** The attribute fallback of the coordinator *)

Lemma apply_single f timeout c :
  apply (Single f) timeout c
  = apply (Sequence (replicate (num_envs c) (Fn f))) timeout c.
Proof.
  unfold apply, apply_async, bind, _assert_is_running.
  by destruct (closed c).
Qed.





(** ** The proxy *)

Lemma proxy_read_present idx name c :
  Proxy.__getattribute__ idx name c
  = (results ⇐ apply_at (attrgetter name) idx ;; ret (present idx results)) c.
Proof.
  unfold Proxy.__getattribute__, bind.
  destruct (apply_at (attrgetter name) idx c) as [[v|e|] c']; [|done..].
  destruct v as [| | | |rs| | |]; try done. simpl.
  by destruct (forallb ismethod rs).
Qed.

Lemma proxy_read_round idx name c :
  (Proxy.__getattribute__ idx name c).2
  = (apply_at (attrgetter name) idx c).2.
Proof.
  rewrite proxy_read_present. unfold bind.
  by destruct (apply_at (attrgetter name) idx c) as [[v|e|] c'].
Qed.

Lemma proxy_read_value idx name c v :
  (apply_at (attrgetter name) idx c).1 = Return v →
  (Proxy.__getattribute__ idx name c).1 = Return (present idx v).
Proof.
  rewrite proxy_read_present. unfold bind.
  destruct (apply_at (attrgetter name) idx c) as [[v'|e|] c']; simpl; [|done..].
  by intros [= ->].
Qed.

Lemma getitem_slice_0_2 c :
  2 ≤ num_envs c →
  __getitem__ (KSlice (Some 0%Z) (Some 2%Z) None) c
  = (Return (Indices [0%Z; 1%Z]), c).
Proof.
  intros Hn. unfold __getitem__, slice_range, py_range; simpl.
  rewrite Z.min_l, Z.min_l by lia. done.
Qed.

(** C7 (amended).  Reading an attribute off a proxy runs exactly one
    [apply_at] round with the attribute getter.  For a proxy bound to an
    index collection the results are the values of the addressed
    workers in worker order: when all of them are bound methods the
    proxy returns a [BatchedMethod] over them, and otherwise it returns
    the list, so that [coordinator[0:2].some_attr] is
    [[env0.some_attr, env1.some_attr]] for plain values.  For a proxy
    bound to a scalar index the value of that worker is returned as it
    is, a bound method included, as long as it is not a list. *)
Theorem proxy_read c name :
  closed c = false → _state c = DEFAULT →
  (∀ idx, (Proxy.__getattribute__ idx name c).2
          = (apply_at (attrgetter name) idx c).2)
  ∧ (∀ l, addressed_ok c (attrgetter name) l →
      ∃ vs,
        Forall2 (returns_at c (attrgetter name))
          (filter (λ j : nat, Z.of_nat j ∈ l) (seq 0 (num_envs c))) vs
        ∧ (Proxy.__getattribute__ (Indices l) name c).1
          = Return (if forallb ismethod vs
                    then BatchedMethod vs (Indices l)
                    else Values (VList vs)))
  ∧ (∀ i w v, parent_pipes c !! i = Some w → ready w →
              (attrgetter name (w_env w)).2 = Ok v →
              (∀ rs, v ≠ VList rs) →
              (Proxy.__getattribute__ (Int (Z.of_nat i)) name c).1
              = Return (Values v))
  ∧ (∀ w0 w1 rest a0 a1,
      parent_pipes c = w0 :: w1 :: rest → ready w0 → ready w1 →
      (attrgetter name (w_env w0)).2 = Ok a0 →
      (attrgetter name (w_env w1)).2 = Ok a1 →
      ismethod a0 = false → ismethod a1 = false →
      ((proxy ⇐ __getitem__ (KSlice (Some 0%Z) (Some 2%Z) None) ;;
        Proxy.__getattribute__ proxy name) c).1
      = Return (Values (VList [a0; a1]))).
Proof.
  intros Hc Hs.
  assert (∀ l, addressed_ok c (attrgetter name) l →
      ∃ vs,
        Forall2 (returns_at c (attrgetter name))
          (filter (λ j : nat, Z.of_nat j ∈ l) (seq 0 (num_envs c))) vs
        ∧ (Proxy.__getattribute__ (Indices l) name c).1
          = Return (if forallb ismethod vs
                    then BatchedMethod vs (Indices l)
                    else Values (VList vs))) as Hcoll.
  { intros l Hok.
    destruct (proj2 (apply_at_ok c (attrgetter name) Hc Hs) l Hok)
      as (vs & Hres & HF & _).
    exists vs. split; [done|].
    rewrite (proxy_read_value _ _ _ _ Hres). done. }
  split; [intros; apply proxy_read_round|].
  split; [done|]. split.
  - intros i w v Hw Hr Hv Hnl.
    rewrite (proxy_read_value _ _ _ v).
    + destruct v; try done. by destruct (Hnl vs).
    + by eapply (proj1 (apply_at_ok c (attrgetter name) Hc Hs)).
  - intros w0 w1 rest a0 a1 Hp Hr0 Hr1 Ha0 Ha1 Hm0 Hm1.
    unfold bind at 1. rewrite getitem_slice_0_2
      by (unfold num_envs; rewrite Hp; simpl; lia).
    destruct (Hcoll [0%Z; 1%Z]) as (vs & HF & ->).
    { intros j w Hw Hj. rewrite Hp in Hw.
      destruct j as [|[|j]]; simpl in Hw.
      - injection Hw as <-. eauto.
      - injection Hw as <-. eauto.
      - exfalso. apply elem_of_cons in Hj as [?|Hj]; [lia|].
        apply list_elem_of_singleton in Hj. lia. }
    rewrite (filter_seq_increasing [0%Z; 1%Z] 0 (num_envs c)) in HF.
    + simpl in HF.
      apply Forall2_cons_inv_l in HF as (v0 & vs' & (w & Hw & Hv0) & HF & ->).
      apply Forall2_cons_inv_l in HF as (v1 & vs'' & (w' & Hw' & Hv1) & HF & ->).
      apply Forall2_nil_inv_l in HF as ->.
      rewrite Hp in Hw, Hw'. simpl in Hw, Hw'.
      injection Hw as <-. injection Hw' as <-.
      rewrite Ha0 in Hv0. rewrite Ha1 in Hv1.
      injection Hv0 as <-. injection Hv1 as <-.
      simpl. by rewrite Hm0.
    + repeat constructor; lia.
    + unfold num_envs. rewrite Hp. simpl. repeat constructor; lia.
Qed.

(** C7 as stated fails for a scalar index: on one worker whose [step]
    is a bound method, [coordinator[0].step] is that method itself and
    not a [BatchedMethod]. *)
Lemma proxy_read_scalar_method :
  (attrgetter "step" env_m).2 = Ok (VMethod 0 "step")
  ∧ ismethod (VMethod 0 "step") = true
  ∧ ((proxy ⇐ __getitem__ (KInt 0) ;; Proxy.__getattribute__ proxy "step")
       (coordinator [env_m])).1
    = Return (Values (VMethod 0 "step"))
  ∧ ∀ methods idx,
      ((proxy ⇐ __getitem__ (KInt 0) ;; Proxy.__getattribute__ proxy "step")
         (coordinator [env_m])).1
      ≠ Return (BatchedMethod methods idx).
Proof.
  assert (((proxy ⇐ __getitem__ (KInt 0) ;; Proxy.__getattribute__ proxy "step")
             (coordinator [env_m])).1
          = Return (Values (VMethod 0 "step"))) as E by (by vm_compute).
  split; [by vm_compute|]. split; [done|]. split; [done|].
  intros methods idx. rewrite E. discriminate.
Qed.

(** ** Attribute lookup *)

Section attribute_lookup.

Context (h : gmap loc obj).

Lemma visited_bound (seen : list loc) :
  NoDup seen → (∀ l, l ∈ seen → is_Some (h !! l)) →
  length seen ≤ size h.
Proof.
  intros Hnd Hdom.
  rewrite <- (size_list_to_set (C:=gset loc) seen) by done.
  rewrite <- (size_dom (D:=gset loc) h). apply subseteq_size.
  intros l Hl. apply elem_of_list_to_set in Hl. by apply elem_of_dom, Hdom.
Qed.

Lemma visited_snoc (seen : list loc) l o :
  NoDup seen → (∀ y, y ∈ seen → is_Some (h !! y)) →
  l ∉ seen → h !! l = Some o →
  NoDup (seen ++ [l]) ∧ (∀ y, y ∈ (seen ++ [l])%list → is_Some (h !! y)).
Proof.
  intros Hnd Hdom Hnew Hl. split.
  - apply NoDup_app. split; [done|]. split; [|apply NoDup_singleton].
    intros y Hy Heq%list_elem_of_singleton. by subst.
  - intros y [Hy|Heq%list_elem_of_singleton]%elem_of_app; [auto|].
    subst. eauto.
Qed.



Lemma lookup_attribute_ref v name x :
  lookup_attribute h v name = Found x → ∃ l o, v = VRef l ∧ h !! l = Some o.
Proof.
  unfold lookup_attribute. simpl.
  destruct v as [| | | | |l| |]; try done.
  destruct (h !! l) as [o|] eqn:E; [intros _; by exists l, o|done].
Qed.

Lemma lookup_attribute_own l o name x :
  h !! l = Some o → attrs o !! name = Some x →
  lookup_attribute h (VRef l) name = Found x.
Proof. intros Hl Hx. unfold lookup_attribute. simpl. by rewrite Hl, Hx. Qed.

(** An object that is not a wrapper answers from its own table. *)
Lemma lookup_attribute_plain l o name :
  h !! l = Some o → is_wrapper o = false →
  lookup_attribute h (VRef l) name
  = from_option Found Missing (attrs o !! name).
Proof.
  intros Hl Hw. unfold lookup_attribute. simpl. rewrite Hl, Hw.
  by destruct (attrs o !! name).
Qed.




Lemma lookup_attribute_no_recursion v name :
  plain h → lookup_attribute h v name ≠ Recursion.
Proof.
  intros Hplain. destruct v as [| | | | |l| |]; try done.
  destruct (h !! l) as [o|] eqn:Hl.
  - rewrite (lookup_attribute_plain l o) by eauto.
    by destruct (attrs o !! name).
  - unfold lookup_attribute. simpl. by rewrite Hl.
Qed.

Lemma hasattr_ref v n :
  hasattr h v n = true → ∃ l o, v = VRef l ∧ h !! l = Some o.
Proof.
  unfold hasattr. destruct (lookup_attribute h v n) eqn:E; try done.
  intros _. by eapply lookup_attribute_ref.
Qed.

End attribute_lookup.

(** Setting [name] on an object leaves the lookup of every other name as
    it was, unless the name set is [env]. *)
Lemma lookup_attr_insert h l o name x fuel v n seen :
  h !! l = Some o → n ≠ name → name ≠ "env" →
  lookup_attr fuel
    (<[l := Obj (cls o) (<[name := x]> (attrs o)) (is_wrapper o)]> h) v n seen
  = lookup_attr fuel h v n seen.
Proof.
  intros Hl Hn Henv. revert v seen.
  induction fuel as [|fuel IH]; intros v seen; [done|].
  simpl. destruct v as [| | | | |l'| |]; try done.
  destruct (decide (l' = l)) as [->|Hne].
  - rewrite lookup_insert_eq, Hl. simpl.
    rewrite !lookup_insert_ne by done.
    destruct (attrs o !! n); [done|].
    destruct (negb (is_wrapper o) || startswith_underscore n); [done|].
    case_bool_decide; [done|].
    destruct (attrs o !! "env"); [apply IH|done].
  - rewrite lookup_insert_ne by done.
    destruct (h !! l') as [o'|]; [|done].
    destruct (attrs o' !! n); [done|].
    destruct (negb (is_wrapper o') || startswith_underscore n); [done|].
    case_bool_decide; [done|].
    destruct (attrs o' !! "env"); [apply IH|done].
Qed.

Lemma size_insert_live (h : gmap loc obj) l o o' :
  h !! l = Some o → size (<[l := o']> h) = size h.
Proof.
  intros Hl. rewrite <- !(size_dom (D:=gset loc)). f_equal.
  rewrite dom_insert_L. apply subseteq_union_1_L, singleton_subseteq_l.
  by apply elem_of_dom.
Qed.

Lemma lookup_attribute_insert h l o name x v n :
  h !! l = Some o → n ≠ name → name ≠ "env" →
  lookup_attribute
    (<[l := Obj (cls o) (<[name := x]> (attrs o)) (is_wrapper o)]> h) v n
  = lookup_attribute h v n.
Proof.
  intros Hl Hn Henv. unfold lookup_attribute.
  rewrite (size_insert_live h l o) by done.
  by rewrite (lookup_attr_insert h l o).
Qed.

Lemma getattr_written h l c a w name x :
  getattr (<[l := Obj c (<[name := x]> a) w]> h) (VRef l) name = Some x.
Proof.
  unfold getattr.
  rewrite (lookup_attribute_own _ l (Obj c (<[name := x]> a) w) name x);
    [done|apply lookup_insert_eq|apply lookup_insert_eq].
Qed.

(** ** [set_wrapper_attribute] walks the chain and stops *)

Section wrapper_walk.

Context (h : gmap loc obj) (name : string).

(** The visited list bounds the walk. *)
Lemma set_wrapper_loop_total fuel env wrappers :
  NoDup wrappers → (∀ l, l ∈ wrappers → is_Some (h !! l)) →
  size h < fuel + length wrappers →
  set_wrapper_loop fuel h name env wrappers ≠ Diverge.
Proof.
  revert env wrappers. induction fuel as [|fuel IH];
    intros env wrappers Hnd Hdom Hfuel.
  { pose proof (visited_bound h _ Hnd Hdom). simpl in *. lia. }
  simpl. destruct (lookup_attribute h env name); try done.
  destruct (lookup_attribute h env "env") as [inner| |] eqn:Henv; try done.
  destruct (lookup_attribute_ref h _ _ _ Henv) as (l & o & -> & Hl).
  case_bool_decide as Hseen; [done|].
  destruct (visited_snoc h wrappers l o) as [Hnd' Hdom']; [done..|].
  apply IH; [done|done|]. rewrite length_app. simpl. lia.
Qed.

Lemma set_wrapper_loop_fuel fuel fuel' env wrappers :
  set_wrapper_loop fuel h name env wrappers ≠ Diverge →
  fuel ≤ fuel' →
  set_wrapper_loop fuel' h name env wrappers
  = set_wrapper_loop fuel h name env wrappers.
Proof.
  revert fuel' env wrappers. induction fuel as [|fuel IH];
    intros [|fuel'] env wrappers; simpl; try done; [lia|].
  intros Hrun Hle. destruct (lookup_attribute h env name); try done.
  destruct (lookup_attribute h env "env") as [inner| |]; try done.
  destruct env as [| | | | |l| |]; try done.
  case_bool_decide; [done|]. apply IH; [done|lia].
Qed.

Lemma nth_env_add env i j :
  nth_env h env (i + j) = e ← nth_env h env i; nth_env h e j.
Proof.
  revert env. induction i as [|i IH]; intros env; simpl; [done|].
  destruct (getattr h env "env") as [inner|]; simpl; [apply IH|done].
Qed.

Lemma goes_on_stops_at e : goes_on h name e → stops_at h name e → False.
Proof.
  unfold goes_on, stops_at, hasattr. intros [Hname Henv] [Hhas|[_ Hno]].
  - by rewrite Hname in Hhas.
  - by rewrite Hno in Henv.
Qed.

(** Before the walk reaches an object it stops at, it meets no object
    twice. *)
Lemma walk_no_repeat env k target i j :
  (∀ i, i < k → ∃ e, nth_env h env i = Some e ∧ goes_on h name e) →
  nth_env h env k = Some target → stops_at h name target →
  i < j → j < k → nth_env h env i ≠ nth_env h env j.
Proof.
  intros Hwalk Hk Hstop Hij Hjk Heq.
  assert (nth_env h env (i + (k - j)) = Some target) as Hback.
  { rewrite nth_env_add, Heq, <- nth_env_add.
    by replace (j + (k - j)) with k by lia. }
  destruct (Hwalk (i + (k - j))) as (e & He & Hgo); [lia|].
  rewrite Hback in He. injection He as <-.
  by eapply goes_on_stops_at.
Qed.

Lemma set_wrapper_loop_walk k target :
  stops_at h name target →
  ∀ fuel env wrappers,
    k < fuel →
    (∀ i, i < k → ∃ l, nth_env h env i = Some (VRef l) ∧
                       goes_on h name (VRef l) ∧ l ∉ wrappers) →
    (∀ i j, i < j → j < k → nth_env h env i ≠ nth_env h env j) →
    nth_env h env k = Some target →
    set_wrapper_loop fuel h name env wrappers = Ok target.
Proof.
  intros Hstop. induction k as [|k IH];
    intros [|fuel] env wrappers Hfuel Hwalk Hnr Hk; try lia.
  - simpl in *. injection Hk as ->.
    destruct Hstop as [Hhas|[-> ->]]; [|done].
    unfold hasattr in Hhas. by destruct (lookup_attribute h target name).
  - destruct (Hwalk 0) as (l & [= ->] & [Hname Henv] & Hnew); [lia|].
    simpl in Hk |- *. rewrite Hname.
    unfold hasattr in Henv. unfold getattr in Hk.
    destruct (lookup_attribute h (VRef l) "env") as [inner| |] eqn:Hinner;
      try done.
    rewrite bool_decide_false by done. simpl in Hk.
    apply IH; [lia| |  |done].
    + intros i Hi. destruct (Hwalk (S i)) as (l' & Hl' & ? & ?); [lia|].
      simpl in Hl'. unfold getattr in Hl'. rewrite Hinner in Hl'.
      simpl in Hl'.
      exists l'. split; [done|]. split; [done|].
      intros [?|Heq%list_elem_of_singleton]%elem_of_app; [done|]. subst l'.
      apply (Hnr 0 (S i)); [lia|lia|].
      simpl. unfold getattr. rewrite Hinner. simpl. by rewrite Hl'.
    + intros i j Hij Hj Heq. apply (Hnr (S i) (S j)); [lia|lia|].
      simpl. unfold getattr. rewrite Hinner. done.
Qed.

Lemma set_wrapper_loop_on_chain fuel env wrappers target :
  set_wrapper_loop fuel h name env wrappers = Ok target →
  ∃ k, nth_env h env k = Some target.
Proof.
  revert env wrappers. induction fuel as [|fuel IH];
    intros env wrappers; simpl; [done|].
  destruct (lookup_attribute h env name);
    try done; try (intros [= <-]; by exists 0).
  destruct (lookup_attribute h env "env") as [inner| |] eqn:Henv;
    try done; try (intros [= <-]; by exists 0).
  destruct env as [| | | | |l| |]; try (intros [= <-]; by exists 0).
  case_bool_decide; [intros [= <-]; by exists 0|].
  intros [k Hk]%IH. exists (S k). simpl. unfold getattr. by rewrite Henv.
Qed.

End wrapper_walk.

Lemma setattr_Some h target name x h' :
  setattr h target name x = Some h' →
  ∃ l o, target = VRef l ∧ h !! l = Some o ∧
         h' = <[l := Obj (cls o) (<[name := x]> (attrs o)) (is_wrapper o)]> h.
Proof.
  destruct target as [| | | | |l| |]; try done. simpl.
  destruct (h !! l) as [o|] eqn:Hl; [|done].
  intros [= <-]. by exists l, o.
Qed.

Lemma set_wrapper_attribute_halts h env name x :
  set_wrapper_attribute h env name x ≠ Diverge.
Proof.
  unfold set_wrapper_attribute.
  pose proof (set_wrapper_loop_total h name (S (size h)) env []) as Hrun.
  destruct (set_wrapper_loop (S (size h)) h name env []) as [t| |];
    [by destruct (setattr h t name x)|done|].
  exfalso. apply Hrun; [constructor|by intros ? ?%elem_of_nil|simpl; lia|done].
Qed.

Lemma set_wrapper_attribute_Ok h env name x h' ty :
  set_wrapper_attribute h env name x = Ok (h', ty) →
  ∃ l o, set_wrapper_loop (S (size h)) h name env [] = Ok (VRef l)
         ∧ h !! l = Some o
         ∧ h' = <[l := Obj (cls o) (<[name := x]> (attrs o)) (is_wrapper o)]> h
         ∧ ty = VType (cls o).
Proof.
  unfold set_wrapper_attribute.
  destruct (set_wrapper_loop (S (size h)) h name env []) as [t| |]; try done.
  destruct (setattr h t name x) as [h1|] eqn:Hset; [|done].
  destruct (setattr_Some _ _ _ _ _ Hset) as (l & o & -> & Hl & ->).
  intros [= <- <-]. exists l, o. repeat split; [done|].
  simpl. by rewrite lookup_insert_eq.
Qed.

Lemma set_wrapper_attribute_at h env name x k l o :
  (∀ i, i < k → ∃ e, nth_env h env i = Some e ∧ goes_on h name e) →
  nth_env h env k = Some (VRef l) → h !! l = Some o →
  stops_at h name (VRef l) →
  set_wrapper_attribute h env name x
  = Ok (<[l := Obj (cls o) (<[name := x]> (attrs o)) (is_wrapper o)]> h,
        VType (cls o)).
Proof.
  intros Hwalk Hk Hl Hstop.
  assert (set_wrapper_loop (S k) h name env [] = Ok (VRef l)) as Hrun.
  { apply (set_wrapper_loop_walk h name k (VRef l) Hstop); [lia| |  |done].
    - intros i Hi. destruct (Hwalk i Hi) as (e & He & Hgo).
      destruct (hasattr_ref h _ _ (proj2 Hgo)) as (l' & o' & -> & _).
      exists l'. repeat split; try done; try apply Hgo.
      by intros ?%elem_of_nil.
    - intros i j ??. by eapply walk_no_repeat. }
  pose proof (set_wrapper_loop_total h name (S (size h)) env []) as Htot.
  assert (set_wrapper_loop (S (size h)) h name env [] = Ok (VRef l)) as Ht.
  { rewrite <- (set_wrapper_loop_fuel h name (S (size h)) (S k + S (size h)));
      [|apply Htot; [constructor|by intros ? ?%elem_of_nil|simpl; lia]|lia].
    rewrite (set_wrapper_loop_fuel h name (S k) (S k + S (size h)));
      [done|by rewrite Hrun|lia]. }
  unfold set_wrapper_attribute. rewrite Ht. simpl. rewrite Hl. simpl.
  by rewrite lookup_insert_eq.
Qed.

(** C9.  On two [gym.Wrapper]s that are each other's [env], and a public
    name neither has, [set_wrapper_attribute] does not get as far as its
    visited list: the first [hasattr(env, name)] hands the lookup from
    wrapper to wrapper without end, and the call leaves with
    [RecursionError], no attribute set.  On the same cycle made of plain
    objects the visited list does stop the walk. *)
Theorem set_wrapper_attribute_cyclic_wrappers :
  set_wrapper_attribute cyclic_wrappers (VRef 0) "limit" (VInt 7)
  = Exc (VStr "RecursionError")
  ∧ set_wrapper_attribute cyclic_heap (VRef 0) "limit" (VInt 7)
    = Ok (<[0 := Obj "Outer" {[ "env" := VRef 1; "limit" := VInt 7 ]} false]>
            cyclic_heap, VType "Outer").
Proof. split; by vm_compute. Qed.

(** ** Writing through the proxy and reading back *)

Lemma set_wrapper_attribute_here h l o name x :
  h !! l = Some o → stops_at h name (VRef l) →
  set_wrapper_attribute h (VRef l) name x
  = Ok (<[l := Obj (cls o) (<[name := x]> (attrs o)) (is_wrapper o)]> h,
        VType (cls o)).
Proof.
  intros Hl Hstop.
  apply (set_wrapper_attribute_at h (VRef l) name x 0 l o);
    [intros; lia|done|done|done].
Qed.

Lemma attrgetter_written h l o name x :
  split_dot name = [name] →
  (attrgetter name
     (MkEnv (<[l := Obj (cls o) (<[name := x]> (attrs o)) (is_wrapper o)]> h)
            l)).2 = Ok x.
Proof.
  intros Hname. unfold attrgetter. rewrite Hname. simpl.
  by rewrite getattr_written.
Qed.

(** The round trip holds when the write lands on the outermost object
    and the value is not a list: for an undotted [name], the value read
    back through [coordinator[i]] is the value written. *)
Lemma proxy_roundtrip_plain c i w o name x :
  closed c = false → _state c = DEFAULT →
  parent_pipes c !! i = Some w → ready w →
  heap (w_env w) !! this (w_env w) = Some o →
  stops_at (heap (w_env w)) name (VRef (this (w_env w))) →
  split_dot name = [name] → (∀ rs, x ≠ VList rs) →
  (Proxy.__getattribute__ (Int (Z.of_nat i)) name
     (Proxy.__setattr__ (Int (Z.of_nat i)) name x c).2).1
  = Return (Values x).
Proof.
  intros Hc Hs Hw Hr Ho Hstop Hname Hnl.
  assert ((set_wrapper_attribute_work name x (w_env w))
          = (MkEnv (<[this (w_env w) :=
                        Obj (cls o) (<[name := x]> (attrs o)) (is_wrapper o)]> (heap (w_env w)))
                   (this (w_env w)), Ok (VType (cls o)))) as Hwork.
  { unfold set_wrapper_attribute_work.
    by rewrite (set_wrapper_attribute_here _ _ o). }
  assert (addressed_ok c (set_wrapper_attribute_work name x) [Z.of_nat i])
    as Hok.
  { intros j w' Hw' ->%list_elem_of_singleton%Nat2Z.inj.
    rewrite Hw in Hw'. injection Hw' as <-. split; [done|].
    rewrite Hwork. eauto. }
  unfold Proxy.__setattr__.
  rewrite (apply_at_round c _ (Int (Z.of_nat i)))
    by auto using addressed_slots_ok.
  simpl. rewrite addressed_no_failure by done.
  set (fs := operations_at (set_wrapper_attribute_work name x) [Z.of_nat i]
               (num_envs c)).
  set (c' := MkVec false DEFAULT (callable <$> fs)
               (zip_with slot_after (parent_pipes c) fs)).
  assert (fs !! i = Some (Fn (set_wrapper_attribute_work name x))) as Hfs.
  { unfold fs. rewrite lookup_operations_at by (by eapply lookup_lt_Some).
    by rewrite bool_decide_true by (by apply list_elem_of_singleton). }
  assert ((match list_getitem (zip_with slot_reply (parent_pipes c) fs).*1
                   (Z.of_nat i) with
           | Some r => (Return r, c')
           | None => (Raise IndexError, c')
           end).2 = c') as -> by (by destruct (list_getitem _ _)).
  assert (Proxy.__getattribute__ (Int (Z.of_nat i)) name c'
          = (results ⇐ apply_at (attrgetter name) (Int (Z.of_nat i)) ;;
             ret (present (Int (Z.of_nat i)) results)) c') as ->.
  { apply proxy_read_present. }
  unfold bind.
  pose proof (proj1 (apply_at_ok c' (attrgetter name) eq_refl eq_refl) i
                (slot_after w (Fn (set_wrapper_attribute_work name x))) x)
    as Hread.
  destruct (apply_at (attrgetter name) (Int (Z.of_nat i)) c') as [out c''].
  simpl in Hread. rewrite Hread.
  - simpl. destruct x; try done. by destruct (Hnl vs).
  - unfold c'. simpl. by rewrite lookup_zip_with, Hw, Hfs.
  - destruct Hr as [_ Hlat]. by split.
  - simpl. rewrite Hwork. simpl. apply attrgetter_written. done.
Qed.

(** ** Instances *)

Lemma ready_idle_worker env : ready (idle_worker env).
Proof. split; [reflexivity|]. exists 0. reflexivity. Defined.

Lemma apply_placeholders_witness :
  apply (Sequence [Fn (attrgetter "x"); NotCallable VNone; Fn (hasattr_ "y")])
        None (coordinator [env_a; env_b; env_c])
  = (Return [VInt 10; VNone; VBool false],
     MkVec false DEFAULT [true; false; true]
           [idle_worker env_a; idle_worker env_b; idle_worker env_c]).
Proof.
  apply (proj1 apply_placeholders (idle_worker env_a) (idle_worker env_b)
           (idle_worker env_c) (attrgetter "x") (hasattr_ "y") VNone
           env_a (VInt 10) env_c (VBool false) []).
  - apply ready_idle_worker.
  - apply ready_idle_worker.
  - vm_compute. reflexivity.
  - vm_compute. reflexivity.
Defined.

Lemma five_workers_ok l :
  addressed_ok (coordinator [env_a; env_b; env_c; env_d; env_e])
               (attrgetter "x") l.
Proof.
  intros j w Hw _.
  do 5 (destruct j as [|j];
        [injection Hw as <-; split;
         [apply ready_idle_worker|eexists; vm_compute; reflexivity]|]).
  discriminate Hw.
Defined.

Lemma apply_at_unwraps_witness :
  (apply_at (attrgetter "x") (Int 2)
            (coordinator [env_a; env_b; env_c; env_d; env_e])).1
  = Return (VInt 12)
  ∧ ∃ vs,
      (apply_at (attrgetter "x") (Indices [0; 3]%Z)
                (coordinator [env_a; env_b; env_c; env_d; env_e])).1
      = Return (VList vs)
      ∧ Forall2 (λ x v, returns_at
                          (coordinator [env_a; env_b; env_c; env_d; env_e])
                          (attrgetter "x") (Z.to_nat x) v)
                [0; 3]%Z vs.
Proof.
  destruct (apply_at_unwraps
              (coordinator [env_a; env_b; env_c; env_d; env_e])
              (attrgetter "x") eq_refl eq_refl) as [Hint Hcoll].
  split.
  - apply (Hint 2 (idle_worker env_c) (VInt 12)).
    + reflexivity.
    + apply ready_idle_worker.
    + vm_compute. reflexivity.
  - destruct (Hcoll [0; 3]%Z (five_workers_ok _)) as (vs & Hres & _ & Hgiven).
    exists vs. split; [exact Hres|]. apply Hgiven.
    + repeat constructor.
    + repeat constructor; simpl; lia.
Defined.

(** C4 as stated fails for an unsorted collection: [apply_at(f, [1, 0])]
    returns [[f(env0), f(env1)]], the worker order, and not
    [[f(env1), f(env0)]]. *)
Lemma apply_at_given_order_fails :
  (attrgetter "x" env_a).2 = Ok (VInt 10)
  ∧ (attrgetter "x" env_b).2 = Ok (VInt 11)
  ∧ (apply_at (attrgetter "x") (Indices [1; 0]%Z)
              (coordinator [env_a; env_b])).1
    = Return (VList [VInt 10; VInt 11])
  ∧ (apply_at (attrgetter "x") (Indices [1; 0]%Z)
              (coordinator [env_a; env_b])).1
    ≠ Return (VList [VInt 11; VInt 10]).
Proof.
  assert ((apply_at (attrgetter "x") (Indices [1; 0]%Z)
             (coordinator [env_a; env_b])).1
          = Return (VList [VInt 10; VInt 11])) as E by (by vm_compute).
  split; [by vm_compute|]. split; [by vm_compute|]. split; [done|].
  rewrite E. discriminate.
Qed.

Lemma quiescent_coordinator envs : quiescent (coordinator envs).
Proof.
  split; [reflexivity|]. split; [reflexivity|].
  induction envs as [|env envs IH]; [constructor|].
  constructor; [apply ready_idle_worker|exact IH].
Defined.


Lemma proxy_read_witness :
  ((proxy ⇐ __getitem__ (KSlice (Some 0%Z) (Some 2%Z) None) ;;
    Proxy.__getattribute__ proxy "x") (coordinator [env_a; env_b; env_c])).1
  = Return (Values (VList [VInt 10; VInt 11])).
Proof.
  apply (proj2 (proj2 (proj2
           (proxy_read (coordinator [env_a; env_b; env_c]) "x"
                       eq_refl eq_refl)))
           (idle_worker env_a) (idle_worker env_b) [idle_worker env_c]).
  - reflexivity.
  - apply ready_idle_worker.
  - apply ready_idle_worker.
  - vm_compute. reflexivity.
  - vm_compute. reflexivity.
  - reflexivity.
  - reflexivity.
Defined.

(** C8 on the code.  On one worker, [coordinator[0].attr = []] stores the
    empty list in the environment, and reading [coordinator[0].attr]
    afterwards returns a [BatchedMethod] over no methods instead of the
    empty list. *)
Theorem proxy_roundtrip_empty_list :
  let written :=
    (proxy ⇐ __getitem__ (KInt 0) ;; Proxy.__setattr__ proxy "attr" (VList []))
      (coordinator [env_bare]) in
  written.1 = Return (VType "Bare")
  ∧ (w ← parent_pipes written.2 !! 0; Some (attrgetter "attr" (w_env w)).2)
    = Some (Ok (VList []))
  ∧ ((proxy ⇐ __getitem__ (KInt 0) ;; Proxy.__getattribute__ proxy "attr")
       written.2).1
    = Return (BatchedMethod [] (Int 0)).
Proof. by vm_compute. Qed.

(** * Further properties of the module *)

(** ** Rounds of [apply] on a quiescent coordinator *)

Lemma ready_slot_after w e : ready w → ready (slot_after w e).
Proof. intros [Hp Hl]. destruct e; [by split|by split]. Qed.

Lemma quiescent_slots_ok c fs :
  quiescent c → length fs = num_envs c →
  (∀ i w f, parent_pipes c !! i = Some w → fs !! i = Some (Fn f) →
            (f (w_env w)).2 ≠ Diverge) →
  Forall2 slot_ok (parent_pipes c) fs.
Proof.
  intros (_ & _ & Hr) Hlen Hnd. apply Forall2_same_length_lookup.
  split; [done|]. intros i w [f|x] Hw He; [|done]. split; [|eauto].
  rewrite Forall_lookup in Hr. eauto.
Qed.

Lemma Forall_ready_after pipes fs :
  Forall ready pipes → Forall ready (zip_with slot_after pipes fs).
Proof.
  intros Hr. apply Forall_lookup. intros i w' Hi.
  apply lookup_zip_with_Some in Hi as (w & e & -> & Hw & _).
  rewrite Forall_lookup in Hr. apply ready_slot_after. eauto.
Qed.

(** X2.  A round that returns leaves the coordinator as it needs to be for
    the next one: running, idle, every worker with nothing outstanding,
    and the same number of workers; the list returned has one entry per
    worker. *)
Theorem apply_keeps_quiescent c fs results c' :
  quiescent c → length fs = num_envs c →
  (∀ i w f, parent_pipes c !! i = Some w → fs !! i = Some (Fn f) →
            (f (w_env w)).2 ≠ Diverge) →
  apply (Sequence fs) None c = (Return results, c') →
  quiescent c' ∧ num_envs c' = num_envs c ∧ length results = num_envs c.
Proof.
  intros Hq Hlen Hnd.
  pose proof (quiescent_slots_ok c fs Hq Hlen Hnd) as Hok.
  destruct Hq as (Hc & Hs & Hr).
  rewrite apply_round by done. simpl.
  destruct (first_failure 0 _); [done|]. intros [= <- <-].
  unfold quiescent, num_envs in *. simpl.
  split; [|split].
  - split; [done|]. split; [done|]. by apply Forall_ready_after.
  - rewrite length_zip_with. lia.
  - rewrite length_fmap, length_zip_with. lia.
Qed.

(** X3.  When a unit of work raises, [apply] raises only after the reply of
    every addressed worker has been read: in the coordinator it leaves,
    no worker has anything outstanding and every addressed worker holds
    the environment its unit of work left. *)
Theorem apply_failure_collects_all c fs :
  quiescent c → length fs = num_envs c →
  (∀ i w f, parent_pipes c !! i = Some w → fs !! i = Some (Fn f) →
            (f (w_env w)).2 ≠ Diverge) →
  (∃ i w f err, parent_pipes c !! i = Some w ∧ fs !! i = Some (Fn f) ∧
                (f (w_env w)).2 = Exc err) →
  ∃ k c', apply (Sequence fs) None c = (Raise (RemoteExecutionError k), c')
    ∧ Forall ready (parent_pipes c')
    ∧ parent_pipes c' = zip_with slot_after (parent_pipes c) fs.
Proof.
  intros Hq Hlen Hnd (i & w & f & err & Hw & He & Hf).
  pose proof (quiescent_slots_ok c fs Hq Hlen Hnd) as Hok.
  destruct Hq as (Hc & Hs & Hr).
  rewrite apply_round by done. simpl.
  destruct (first_failure 0 _) as [k|] eqn:E.
  - eexists _, _. split; [done|]. simpl. split; [|done].
    by apply Forall_ready_after.
  - apply first_failure_None in E. rewrite Forall_lookup in E.
    specialize (E i false). rewrite list_lookup_fmap, lookup_zip_with in E.
    rewrite Hw, He in E. simpl in E. rewrite Hf in E. simpl in E.
    by specialize (E eq_refl).
Qed.

(** X1.  [apply(f)] with a single callable applies it on every worker: the
    list returned holds [f(env_i)] at position [i], every worker keeps
    the environment [f] left, and the coordinator is quiescent again. *)
Theorem apply_broadcast c f :
  quiescent c →
  (∀ w, w ∈ parent_pipes c → ∃ v, (f (w_env w)).2 = Ok v) →
  ∃ results c',
    apply (Single f) None c = (Return results, c')
    ∧ Forall2 (λ w v, (f (w_env w)).2 = Ok v) (parent_pipes c) results
    ∧ parent_pipes c'
      = (λ w, MkWorker (f (w_env w)).1 [] (w_latency w)) <$> parent_pipes c
    ∧ quiescent c'.
Proof.
  intros Hq Hret. destruct Hq as (Hc & Hs & Hr).
  assert (Forall2 slot_ok (parent_pipes c) (replicate (num_envs c) (Fn f)))
    as Hok.
  { apply Forall2_replicate_r; [done|]. apply Forall_forall.
    intros w Hw. split; [by eapply Forall_forall in Hr|].
    destruct (Hret w Hw) as [v ->]. done. }
  rewrite apply_single, apply_round by done. simpl.
  rewrite !zip_with_replicate_r_eq by done.
  assert (first_failure 0 (flip slot_reply (Fn f) <$> parent_pipes c).*2 = None)
    as ->.
  { apply first_failure_None, Forall_lookup. intros i b Hi.
    apply list_lookup_fmap_Some in Hi as (r & -> & Hi).
    apply list_lookup_fmap_Some in Hi as (w & -> & Hw).
    destruct (Hret w) as [v Hv]; [by eapply list_elem_of_lookup_2|].
    simpl. by rewrite Hv. }
  eexists _, _. split; [done|]. simpl. split; [|split].
  - apply Forall2_fmap_r, Forall2_fmap_r, Forall_Forall2_diag, Forall_forall.
    intros w Hw. destruct (Hret w Hw) as [v Hv]. simpl. by rewrite Hv.
  - done.
  - split; [done|]. split; [done|]. apply Forall_fmap, Forall_forall.
    intros w Hw. eapply Forall_forall in Hr as [_ Hl]; [|done]. by split.
Qed.

(** X4.  A sequence whose length is not the number of workers is refused by
    the assertion before anything is sent or recorded: [apply] raises
    [AssertionError] and the coordinator is exactly as it was. *)
Theorem apply_wrong_length c fs timeout :
  closed c = false → _state c = DEFAULT → length fs ≠ num_envs c →
  apply (Sequence fs) timeout c
  = (Raise (AssertionError "Need a function for each env."), c).
Proof.
  intros Hc Hs Hlen. unfold apply, apply_async, bind, _assert_is_running.
  rewrite Hc, Hs. simpl. by rewrite bool_decide_true.
Qed.

(** ** What a timeout leaves behind *)

Lemma poll_loop_slow t pipes w d :
  w ∈ pipes → w_latency w = Some d → t < d →
  poll_loop t pipes (replicate (length pipes) true) = false.
Proof.
  intros Hin Hd Hlt. apply list_elem_of_lookup in Hin as [i Hi].
  apply (poll_loop_false t _ _ i w); [done| |].
  - apply lookup_replicate. split; [done|]. by eapply lookup_lt_Some.
  - unfold pipe_poll. rewrite Hd. destruct (w_pending w); [done|].
    rewrite bool_decide_false by lia. done.
Qed.

Lemma apply_wait_loop_stale (f g : Work) pipes :
  Forall ready pipes →
  (∀ w, w ∈ pipes → ∃ v, (f (w_env w)).2 = Ok v) →
  ∃ results,
    apply_wait_loop
      ((λ w, pipe_send (Apply g) (pipe_send (Apply f) w)) <$> pipes)
      (replicate (length pipes) true)
    = Some ((λ w, MkWorker (f (w_env w)).1 [Apply g] (w_latency w)) <$> pipes,
            results, replicate (length pipes) true)
    ∧ Forall2 (λ w v, (f (w_env w)).2 = Ok v) pipes results.
Proof.
  induction pipes as [|w pipes IH]; intros Hr Hret.
  - exists []. split; [done|constructor].
  - apply Forall_cons in Hr as [[Hp [d Hd]] Hr].
    destruct IH as (rs & Hloop & HF); [done|intros; apply Hret; by right|].
    destruct (Hret w) as [v Hv]; [by left|].
    exists (v :: rs). split; [|by constructor].
    csimpl. rewrite Hloop. unfold pipe_recv, pipe_send; simpl.
    rewrite Hp, Hd. simpl.
    destruct (f (w_env w)) as [env' r]. simpl in Hv. subst r. done.
Qed.

(** X5.  A timed-out [apply_wait] resets the state without reading the
    replies that are still on their way.  The next round then reads
    those: after [apply_async(f)] times out, [apply(g)] returns the
    results of [f] on every worker, and the command for [g] stays
    outstanding on every pipe. *)
Theorem timeout_leaves_stale_replies c (f g : Work) t :
  quiescent c →
  (∃ w d, w ∈ parent_pipes c ∧ w_latency w = Some d ∧ t < d) →
  (∀ w, w ∈ parent_pipes c → ∃ v, (f (w_env w)).2 = Ok v) →
  (apply_wait (Some t) (apply_async (Single f) c).2).1 = Raise TimeoutError
  ∧ ∃ results c3,
      apply (Single g) None
            (apply_wait (Some t) (apply_async (Single f) c).2).2
      = (Return results, c3)
      ∧ Forall2 (λ w v, (f (w_env w)).2 = Ok v) (parent_pipes c) results
      ∧ parent_pipes c3
        = (λ w, MkWorker (f (w_env w)).1 [Apply g] (w_latency w))
            <$> parent_pipes c.
Proof.
  intros (Hc & Hs & Hr) (w & d & Hin & Hd & Hlt) Hret.
  assert (apply_async (Single f) c
          = (Return tt,
             MkVec false WAITING_APPLY (replicate (num_envs c) true)
                   (pipe_send (Apply f) <$> parent_pipes c))) as Hsend.
  { unfold apply_async, bind, _assert_is_running. rewrite Hc, Hs. simpl.
    rewrite bool_decide_false by (rewrite length_replicate; lia).
    rewrite apply_async_loop_spec by (by rewrite length_replicate).
    rewrite zip_with_replicate_r_eq by done.
    by rewrite fmap_replicate, Hc. }
  assert (apply_wait (Some t)
            (MkVec false WAITING_APPLY (replicate (num_envs c) true)
                   (pipe_send (Apply f) <$> parent_pipes c))
          = (Raise TimeoutError,
             MkVec false DEFAULT (replicate (num_envs c) true)
                   (pipe_send (Apply f) <$> parent_pipes c))) as Hwait.
  { unfold apply_wait, bind, _assert_is_running. simpl.
    unfold num_envs.
    rewrite <- (length_fmap (pipe_send (Apply f)) (parent_pipes c)).
    rewrite (poll_loop_slow t _ (pipe_send (Apply f) w) d); [done| |done|done].
    by apply list_elem_of_fmap_2. }
  rewrite Hsend. cbn [snd]. rewrite Hwait. cbn [fst snd].
  split; [done|].
  destruct (apply_wait_loop_stale f g (parent_pipes c) Hr Hret)
    as (results & Hloop & HF).
  exists results. eexists. split; [|split; [exact HF|]].
  - unfold apply, apply_async, bind, _assert_is_running. simpl.
    rewrite bool_decide_false
      by (unfold num_envs; simpl; rewrite length_replicate; lia).
    rewrite apply_async_loop_spec
      by (unfold num_envs; simpl; by rewrite length_replicate).
    unfold num_envs; simpl. rewrite length_fmap.
    rewrite zip_with_replicate_r_eq by (by rewrite length_fmap).
    rewrite fmap_replicate, <- list_fmap_compose. simpl.
    unfold apply_wait, bind, _assert_is_running. simpl.
    change (flip slot_sent (Fn g) ∘ pipe_send (Apply f))
      with (λ w, pipe_send (Apply g) (pipe_send (Apply f) w)).
    rewrite Hloop. unfold _raise_if_errors.
    assert (first_failure 0 (replicate (length (parent_pipes c)) true) = None)
      as ->.
    { apply first_failure_None, Forall_replicate. done. }
    reflexivity.
  - done.
Qed.

(** ** Edge cases of [apply_at] *)

Lemma operations_at_none op indices n :
  (∀ j, j < n → Z.of_nat j ∉ indices) →
  operations_at op indices n = replicate n (NotCallable VNone).
Proof.
  intros Hnone. apply list_eq. intros j.
  destruct (decide (j < n)) as [Hj|Hj].
  - rewrite lookup_operations_at by done.
    rewrite bool_decide_false by auto.
    symmetry. by apply lookup_replicate.
  - rewrite !(proj2 (lookup_ge_None _ _)); [done| |].
    + rewrite length_replicate. lia.
    + rewrite length_operations_at. lia.
Qed.

Lemma unaddressed_round pipes :
  zip_with slot_reply pipes (replicate (length pipes) (NotCallable VNone))
  = replicate (length pipes) (VNone, true)
  ∧ zip_with slot_after pipes (replicate (length pipes) (NotCallable VNone))
    = pipes.
Proof.
  induction pipes as [|w pipes [IH1 IH2]]; [done|]. simpl.
  by rewrite IH1, IH2.
Qed.

(** X8.  A scalar index that names no worker addresses nobody.  The round
    still runs with every slot a placeholder; then [results[index]]
    raises [IndexError] for an index from [N] upwards, and gives [None]
    for a negative index down to [-N].  No worker is sent anything. *)
Theorem apply_at_index_out_of_range c op i :
  closed c = false → _state c = DEFAULT →
  ((Z.of_nat (num_envs c) ≤ i)%Z →
   apply_at op (Int i) c
   = (Raise IndexError,
      MkVec false DEFAULT (replicate (num_envs c) false) (parent_pipes c)))
  ∧ ((- Z.of_nat (num_envs c) ≤ i < 0)%Z →
     apply_at op (Int i) c
     = (Return VNone,
        MkVec false DEFAULT (replicate (num_envs c) false) (parent_pipes c))).
Proof.
  intros Hc Hs.
  assert ((Z.of_nat (num_envs c) ≤ i ∨ i < 0)%Z →
          apply_at op (Int i) c
          = match list_getitem (replicate (num_envs c) VNone) i with
            | Some r =>
                (Return r, MkVec false DEFAULT (replicate (num_envs c) false)
                                 (parent_pipes c))
            | None =>
                (Raise IndexError,
                 MkVec false DEFAULT (replicate (num_envs c) false)
                       (parent_pipes c))
            end) as Hrun.
  { intros Hi.
    assert (operations_at op (indices_of (Int i)) (num_envs c)
            = replicate (num_envs c) (NotCallable VNone)) as Hops.
    { apply operations_at_none. intros j Hj Heq%list_elem_of_singleton.
      unfold num_envs in *. lia. }
    rewrite apply_at_round; [|done|done|].
    - rewrite Hops. unfold num_envs.
      destruct (unaddressed_round (parent_pipes c)) as [-> ->]. simpl.
      rewrite !fmap_replicate. simpl.
      assert (first_failure 0 (replicate (length (parent_pipes c)) true) = None)
        as -> by (apply first_failure_None, Forall_replicate; done).
      done.
    - rewrite Hops. apply Forall2_replicate_r; [done|].
      by apply Forall_forall. }
  split; intros Hi; (rewrite Hrun by lia); unfold list_getitem.
  - rewrite bool_decide_true by lia.
    rewrite (proj2 (lookup_ge_None _ _)); [done|].
    rewrite length_replicate. lia.
  - rewrite bool_decide_false by lia. rewrite length_replicate.
    rewrite bool_decide_true by lia.
    rewrite (lookup_replicate_2 _ VNone) by lia. done.
Qed.

Lemma apply_wait_loop_lengths pipes expects ps rs ss :
  apply_wait_loop pipes expects = Some (ps, rs, ss) →
  length ps = length pipes
  ∧ length rs = length pipes `min` length expects
  ∧ length ss = length rs.
Proof.
  revert expects ps rs ss.
  induction pipes as [|w pipes IH]; intros [|b expects] ps rs ss; simpl;
    try (by intros [= <- <- <-]).
  destruct b.
  - destruct (pipe_recv w) as [[[r s] w1]|]; [|done].
    destruct (apply_wait_loop pipes expects) as [[[ps' rs'] ss']|] eqn:E;
      [|done].
    intros [= <- <- <-]. destruct (IH _ _ _ _ E) as (? & ? & ?). simpl. lia.
  - destruct (apply_wait_loop pipes expects) as [[[ps' rs'] ss']|] eqn:E;
      [|done].
    intros [= <- <- <-]. destruct (IH _ _ _ _ E) as (? & ? & ?). simpl. lia.
Qed.

(** Every way a call of [apply_at] can end, on any coordinator. *)
Lemma apply_at_cases c op idx :
  let fs := operations_at op (indices_of idx) (num_envs c) in
  let sent := zip_with slot_sent (parent_pipes c) fs in
  (apply_at op idx c = (Raise ClosedEnvironmentError, c))
  ∨ (apply_at op idx c
     = (Raise (AlreadyPendingCallError (state_value (_state c))), c))
  ∨ (apply_at op idx c
     = (Hang, MkVec false WAITING_APPLY (callable <$> fs) sent))
  ∨ (∃ ps rs ss,
       apply_wait_loop sent (callable <$> fs) = Some (ps, rs, ss) ∧
       ((∃ k, apply_at op idx c
              = (Raise (RemoteExecutionError k),
                 MkVec false WAITING_APPLY (callable <$> fs) ps))
        ∨ (∃ out, apply_at op idx c
                  = (out, MkVec false DEFAULT (callable <$> fs) ps)
                  ∧ ∀ msg, out ≠ Raise (AssertionError msg)))).
Proof.
  intros fs sent. unfold apply_at, apply, apply_async, bind, _assert_is_running.
  fold fs. destruct (closed c) eqn:Hc; [by left|]. right.
  destruct (bool_decide (_state c ≠ DEFAULT)) eqn:Hs; [by left|]. right.
  rewrite bool_decide_false
    by (unfold fs; rewrite length_operations_at; lia).
  rewrite apply_async_loop_spec by (unfold fs; by rewrite length_operations_at).
  fold sent. unfold apply_wait, bind, _assert_is_running. simpl.
  rewrite Hc. simpl.
  destruct (apply_wait_loop sent (callable <$> fs)) as [[[ps rs] ss]|] eqn:E;
    [right|by left].
  exists ps, rs, ss. split; [done|]. unfold _raise_if_errors.
  destruct (first_failure 0 ss) as [k|]; simpl; [left; by exists k|right].
  destruct (apply_wait_loop_lengths _ _ _ _ _ E) as (Hps & Hrs & _).
  rewrite bool_decide_false.
  - destruct idx as [i|l].
    + destruct (list_getitem rs i); eexists; (split; [done|done]).
    + eexists; (split; [done|done]).
  - unfold num_envs; simpl. rewrite Hrs, Hps. unfold sent.
    rewrite length_fmap, length_zip_with. unfold fs.
    rewrite length_operations_at. unfold num_envs. lia.
Qed.

(** X10.  [apply_at] leaves the workers it does not address alone: however
    the call ends, the pipe and the environment of every worker whose
    index is not among the given ones are exactly as before. *)
Theorem apply_at_isolates c op idx j :
  Z.of_nat j ∉ indices_of idx →
  parent_pipes (apply_at op idx c).2 !! j = parent_pipes c !! j.
Proof.
  intros Hj.
  assert (zip_with slot_sent (parent_pipes c)
            (operations_at op (indices_of idx) (num_envs c)) !! j
          = parent_pipes c !! j) as Hsent.
  { rewrite lookup_zip_with. destruct (parent_pipes c !! j) as [w|] eqn:Hw;
      [|done]. simpl.
    rewrite lookup_operations_at by (by eapply lookup_lt_Some).
    by rewrite bool_decide_false. }
  assert (∀ ps rs ss,
    apply_wait_loop
      (zip_with slot_sent (parent_pipes c)
         (operations_at op (indices_of idx) (num_envs c)))
      (callable <$> operations_at op (indices_of idx) (num_envs c))
    = Some (ps, rs, ss) → ps !! j = parent_pipes c !! j) as Hread.
  { intros ps rs ss E. destruct (decide (j < num_envs c)) as [Hlt|Hge].
    - rewrite <- Hsent.
      eapply (apply_wait_loop_unaddressed _ _ ps rs ss j); [done| |].
      + rewrite length_zip_with, length_operations_at. unfold num_envs in *. lia.
      + rewrite list_lookup_fmap, lookup_operations_at by done.
        by rewrite bool_decide_false.
    - destruct (apply_wait_loop_lengths _ _ _ _ _ E) as (Hps & _).
      rewrite length_zip_with, length_operations_at in Hps.
      rewrite !(proj2 (lookup_ge_None _ _)); [done| |];
        unfold num_envs in *; lia. }
  destruct (apply_at_cases c op idx)
    as [-> | [-> | [-> | (ps & rs & ss & E & [[k ->] | (out & -> & _)])]]];
    simpl; eauto.
Qed.

(** ** Indices produced by [__getitem__] *)

Lemma py_range_bounds a b st x :
  x ∈ py_range a b st →
  ((0 < st)%Z → (a ≤ x < b)%Z) ∧ ((st < 0)%Z → (b < x ≤ a)%Z).
Proof.
  unfold py_range. intros Hx.
  apply list_elem_of_fmap in Hx as (k & -> & Hk).
  apply elem_of_seq in Hk as [_ Hk]. simpl in Hk.
  split; intros Hst.
  - rewrite bool_decide_true in Hk by done.
    assert (0 < (b - a + st - 1) / st)%Z as Hpos by lia.
    pose proof (Z.mul_div_le (b - a + st - 1) st Hst) as Hdiv.
    rewrite Z.max_r in Hk by lia. nia.
  - rewrite bool_decide_false in Hk by lia.
    assert (0 < (a - b - st - 1) / - st)%Z as Hpos by lia.
    pose proof (Z.mul_div_le (a - b - st - 1) (- st) ltac:(lia)) as Hdiv.
    rewrite Z.max_r in Hk by lia. nia.
Qed.

(** X11.  Whatever its bounds and step, a slice addresses existing workers
    only: every index [tuple(range(n))[start:stop:step]] produces lies in
    [0, n); and a slice is refused exactly when its step is zero. *)
Theorem slice_range_in_bounds start stop step n :
  (slice_range start stop step (Z.of_nat n) = None ↔ step = Some 0%Z)
  ∧ ∀ l, slice_range start stop step (Z.of_nat n) = Some l →
         Forall (λ x, 0 ≤ x < Z.of_nat n)%Z l.
Proof.
  unfold slice_range. split.
  - case_bool_decide as Hst; [|split; [done|]].
    + split; [|done]. intros _. by destruct step as [st|]; simplify_eq/=.
    + intros ->. done.
  - intros l. case_bool_decide as Hst; [done|]. intros [= <-].
    apply Forall_forall. intros x Hx.
    apply py_range_bounds in Hx as [Hup Hdown].
    destruct (decide (default 1 step < 0)%Z) as [Hneg|Hpos].
    + rewrite !bool_decide_true in Hdown by done.
      specialize (Hdown Hneg).
      destruct start as [a|], stop as [b|]; repeat case_bool_decide; lia.
    + rewrite !bool_decide_false in Hup by done.
      specialize (Hup ltac:(lia)).
      destruct start as [a|], stop as [b|]; repeat case_bool_decide; lia.
Qed.

Lemma elem_of_mask_indices i mask x :
  x ∈ mask_indices i mask ↔ ∃ j, x = Z.of_nat (i + j) ∧ mask !! j = Some true.
Proof.
  revert i. induction mask as [|b mask IH]; intros i; simpl.
  - split; [by intros ?%elem_of_nil|by intros (j & _ & ?)].
  - destruct b.
    + rewrite elem_of_cons, IH. split.
      * intros [->|(j & -> & Hj)].
        -- exists 0. split; [f_equal; lia|done].
        -- exists (S j). split; [f_equal; lia|done].
      * intros ([|j] & -> & Hj).
        -- left. f_equal. lia.
        -- right. exists j. split; [f_equal; lia|done].
    + rewrite IH. split.
      * intros (j & -> & Hj). exists (S j). split; [f_equal; lia|done].
      * intros ([|j] & -> & Hj); [done|].
        exists j. split; [f_equal; lia|done].
Qed.

Lemma mask_indices_sorted i mask : StronglySorted Z.lt (mask_indices i mask).
Proof.
  revert i. induction mask as [|b mask IH]; intros i; simpl; [constructor|].
  destruct b; [|apply IH]. constructor; [apply IH|].
  apply Forall_forall. intros x (j & -> & _)%elem_of_mask_indices. lia.
Qed.

Lemma getitem_mask_facts c mask :
  (length mask ≠ num_envs c →
   __getitem__ (KMask mask) c = (Raise IndexError, c))
  ∧ (length mask = num_envs c →
     ∃ l, __getitem__ (KMask mask) c = (Return (Indices l), c)
       ∧ StronglySorted Z.lt l
       ∧ ∀ j, Z.of_nat j ∈ l ↔ mask !! j = Some true).
Proof.
  split; intros Hlen; unfold __getitem__.
  - by rewrite bool_decide_false.
  - rewrite bool_decide_true by done. eexists. split; [done|].
    split; [apply mask_indices_sorted|]. intros j.
    rewrite elem_of_mask_indices. split.
    + intros (j' & Hj & Hm). simpl in Hj. by apply Nat2Z.inj in Hj as ->.
    + intros Hm. by exists j.
Qed.

(** X12.  Subscripting with a boolean mask: a mask whose length is not the
    number of workers is refused with [IndexError]; otherwise the proxy
    is bound to the positions at which the mask is true, in increasing
    order and without repetition. *)
Theorem getitem_mask c mask :
  (length mask ≠ num_envs c →
   __getitem__ (KMask mask) c = (Raise IndexError, c))
  ∧ (length mask = num_envs c →
     ∃ l, __getitem__ (KMask mask) c = (Return (Indices l), c)
       ∧ StronglySorted Z.lt l
       ∧ ∀ j, Z.of_nat j ∈ l ↔ mask !! j = Some true).
Proof. apply getitem_mask_facts. Qed.

(** X13.  Through a proxy made from a boolean mask, [apply_at] returns the
    results in the order of the proxy's own indices: one result for each
    selected worker, in increasing worker order. *)
Theorem apply_at_mask c f mask :
  closed c = false → _state c = DEFAULT → length mask = num_envs c →
  (∀ j w, parent_pipes c !! j = Some w → mask !! j = Some true →
          ready w ∧ ∃ v, (f (w_env w)).2 = Ok v) →
  ∃ l vs,
    __getitem__ (KMask mask) c = (Return (Indices l), c)
    ∧ (apply_at f (Indices l) c).1 = Return (VList vs)
    ∧ Forall2 (λ x v, returns_at c f (Z.to_nat x) v) l vs
    ∧ length vs = length (filter (λ b, b = true) mask).
Proof.
  intros Hc Hs Hlen Hok.
  assert (__getitem__ (KMask mask) c
          = (Return (Indices (mask_indices 0 mask)), c)) as Hget.
  { unfold __getitem__. by rewrite bool_decide_true. }
  destruct (proj2 (apply_at_ok c f Hc Hs) (mask_indices 0 mask))
    as (vs & Hres & _ & Hgiven).
  { intros j w Hw (j' & Hj & Hm)%elem_of_mask_indices.
    simpl in Hj. apply Nat2Z.inj in Hj as ->. by apply (Hok j' w). }
  assert (Forall (λ x, 0 ≤ x < Z.of_nat (num_envs c))%Z (mask_indices 0 mask))
    as Hrange.
  { apply Forall_forall. intros x (j & -> & Hj)%elem_of_mask_indices.
    apply lookup_lt_Some in Hj. lia. }
  specialize (Hgiven (mask_indices_sorted 0 mask) Hrange).
  exists (mask_indices 0 mask), vs.
  split; [done|]. split; [done|]. split; [done|].
  apply Forall2_length in Hgiven. rewrite <- Hgiven.
  clear. generalize 0.
  induction mask as [|b mask IH]; intros i; [done|].
  rewrite filter_cons. destruct b.
  - rewrite decide_True by done. simpl. by rewrite IH.
  - rewrite decide_False by done. apply IH.
Qed.

(** ** What [set_wrapper_attribute] changes *)

(** X14.  A successful [set_wrapper_attribute] writes one entry of the own
    table of one object, and that object lies on the chain of [env]
    links: the value reads back there, the class of the object is the
    type returned, no object is created or removed, and, unless the name
    set is [env], every other name reads from every object as before. *)
Theorem set_wrapper_attribute_effect h env name x h' ty :
  set_wrapper_attribute h env name x = Ok (h', ty) →
  ∃ k l o,
    nth_env h env k = Some (VRef l)
    ∧ h !! l = Some o
    ∧ h' = <[l := Obj (cls o) (<[name := x]> (attrs o)) (is_wrapper o)]> h
    ∧ getattr h' (VRef l) name = Some x
    ∧ ty = VType (cls o)
    ∧ dom h' = dom h
    ∧ (name ≠ "env" →
       ∀ v n, n ≠ name → lookup_attribute h' v n = lookup_attribute h v n).
Proof.
  intros (l & o & Hloop & Hl & -> & ->)%set_wrapper_attribute_Ok.
  apply set_wrapper_loop_on_chain in Hloop as [k Hk].
  exists k, l, o. split; [done|]. split; [done|]. split; [done|].
  split; [apply getattr_written|]. split; [done|]. split.
  - apply dom_insert_lookup_L. by rewrite Hl.
  - intros Hname v n Hn. by apply lookup_attribute_insert.
Qed.




Lemma set_wrapper_loop_plain h name fuel env wrappers :
  plain h →
  set_wrapper_loop fuel h name env wrappers = Diverge
  ∨ ∃ target, set_wrapper_loop fuel h name env wrappers = Ok target.
Proof.
  intros Hplain. revert env wrappers.
  induction fuel as [|fuel IH]; intros env wrappers; simpl; [by left|].
  pose proof (lookup_attribute_no_recursion h env name Hplain).
  pose proof (lookup_attribute_no_recursion h env "env" Hplain).
  destruct (lookup_attribute h env name); [by right; eauto| |done].
  destruct (lookup_attribute h env "env"); [|by right; eauto|done].
  destruct env as [| | | | |l| |]; try (by right; eauto).
  case_bool_decide; [by right; eauto|apply IH].
Qed.

(** X20.  [set_wrapper_attribute] never runs forever: whatever the objects
    and the links between them, it returns or raises, and the loop comes
    to the same end with any fuel above the number of objects.  When no
    object is a [gym.Wrapper] the walk always ends at an object, cycles
    of [env] links included: the visited list stops it. *)
Theorem set_wrapper_attribute_terminates h env name x :
  set_wrapper_attribute h env name x ≠ Diverge
  ∧ (∀ fuel, size h < fuel →
       set_wrapper_loop fuel h name env []
       = set_wrapper_loop (S (size h)) h name env []
       ∧ set_wrapper_loop fuel h name env [] ≠ Diverge)
  ∧ (plain h →
     ∃ target, ∀ fuel, size h < fuel →
       set_wrapper_loop fuel h name env [] = Ok target).
Proof.
  assert (set_wrapper_loop (S (size h)) h name env [] ≠ Diverge) as Htot.
  { apply set_wrapper_loop_total;
      [constructor|by intros ? ?%elem_of_nil|simpl; lia]. }
  assert (∀ fuel, size h < fuel →
            set_wrapper_loop fuel h name env []
            = set_wrapper_loop (S (size h)) h name env []) as Hfuel.
  { intros fuel Hlt. apply set_wrapper_loop_fuel; [done|lia]. }
  split; [apply set_wrapper_attribute_halts|]. split.
  - intros fuel Hlt. split; [by apply Hfuel|]. by rewrite Hfuel.
  - intros Hplain.
    destruct (set_wrapper_loop_plain h name (S (size h)) env [] Hplain)
      as [?|[target Ht]]; [done|].
    exists target. intros fuel Hlt. by rewrite Hfuel.
Qed.

(** ** Bulk writes *)



Lemma set_wrapper_attributes_keeps env kvs :
  ∀ h results h' results',
    set_wrapper_attributes_loop h env kvs results = (h', Ok results') →
    (∀ n, n ∉ kvs.*1 → results' !! n = results !! n)
    ∧ (∀ l o, h !! l = Some o →
         ∃ o', h' !! l = Some o' ∧ cls o' = cls o ∧
               ∀ n, n ∉ kvs.*1 → attrs o' !! n = attrs o !! n)
    ∧ dom h' = dom h.
Proof.
  induction kvs as [|[k v] kvs IH]; intros h results h' results'; simpl.
  - intros [= <- <-]. split; [done|]. split; [|done]. intros l o Hl. by exists o.
  - destruct (set_wrapper_attribute h env k v) as [[h1 ty]| |] eqn:E;
      [|done..].
    apply set_wrapper_attribute_Ok in E as (l1 & o1 & _ & Hl1 & -> & ->).
    intros (Hres & Hobj & Hdom)%IH. split; [|split].
    + intros n [Hne Hn]%not_elem_of_cons.
      rewrite Hres by done. by rewrite lookup_insert_ne.
    + intros l o Hl. destruct (decide (l = l1)) as [->|Hne].
      * destruct (Hobj l1 (Obj (cls o1) (<[k := v]> (attrs o1)) (is_wrapper o1)))
          as (o' & Ho' & Hcls & Hattrs); [by rewrite lookup_insert_eq|].
        rewrite Hl1 in Hl. injection Hl as <-.
        exists o'. split; [done|]. split; [done|].
        intros n [Hne Hn]%not_elem_of_cons.
        rewrite Hattrs by done. simpl. by rewrite lookup_insert_ne.
      * destruct (Hobj l o) as (o' & Ho' & Hcls & Hattrs);
          [by rewrite lookup_insert_ne|].
        exists o'. split; [done|]. split; [done|].
        intros n [_ Hn]%not_elem_of_cons. by apply Hattrs.
    + rewrite Hdom. apply dom_insert_lookup_L. by rewrite Hl1.
Qed.

(** X16.  [set_wrapper_attributes] always comes back, on cyclic chains too,
    and when it returns its dict every given attribute has been set:
    each name reads as its value on some object, the dict records the
    class of that object under the name and has no other keys, and no
    object was created or removed. *)
Theorem set_wrapper_attributes_sets_all h env kvs :
  (set_wrapper_attributes h env kvs ∅).2 ≠ Diverge
  ∧ ∀ h' results,
      NoDup kvs.*1 →
      set_wrapper_attributes h env kvs ∅ = (h', Ok results) →
      (∀ k v, (k, v) ∈ kvs →
         ∃ l o, h' !! l = Some o ∧ attrs o !! k = Some v ∧
                results !! k = Some (VType (cls o)))
      ∧ dom results = list_to_set kvs.*1
      ∧ dom h' = dom h.
Proof.
  unfold set_wrapper_attributes.
  destruct (bool_decide ("env" ∈ kvs.*1)); [by split|].
  split.
  - generalize (∅ : gmap string value) as results. revert h.
    induction kvs as [|[k v] kvs IH]; intros h results; simpl; [done|].
    pose proof (set_wrapper_attribute_halts h env k v) as Hhalt.
    destruct (set_wrapper_attribute h env k v) as [[h1 ty]| |]; [|done..].
    apply IH.
  - intros h' results Hnd.
    assert (∀ results0,
      set_wrapper_attributes_loop h env kvs results0 = (h', Ok results) →
      (∀ k v, (k, v) ∈ kvs →
         ∃ l o, h' !! l = Some o ∧ attrs o !! k = Some v ∧
                results !! k = Some (VType (cls o)))
      ∧ dom results = list_to_set kvs.*1 ∪ dom results0
      ∧ dom h' = dom h) as Hgen.
    { revert h Hnd. induction kvs as [|[k v] kvs IH]; intros h Hnd results0;
        simpl.
      - intros [= <- <-]. split; [by intros ?? ?%elem_of_nil|].
        split; [by rewrite (left_id_L ∅ (∪))|done].
      - apply NoDup_cons in Hnd as [Hk Hnd].
        destruct (set_wrapper_attribute h env k v) as [[h1 ty]| |] eqn:E;
          [|done..].
        apply set_wrapper_attribute_Ok in E as (l1 & o1 & _ & Hl1 & -> & ->).
        intros Hrun.
        destruct (set_wrapper_attributes_keeps _ _ _ _ _ _ Hrun)
          as (Hres & Hobj & _).
        destruct (IH _ Hnd _ Hrun) as (Hset & Hdomr & Hdomh).
        split; [|split].
        + intros k' v' [[= -> ->]|Hin]%elem_of_cons; [|by apply Hset].
          destruct (Hobj l1 (Obj (cls o1) (<[k := v]> (attrs o1)) (is_wrapper o1)))
            as (o' & Ho' & Hcls & Hattrs); [by rewrite lookup_insert_eq|].
          exists l1, o'. split; [done|]. split.
          * rewrite Hattrs by done. simpl. by rewrite lookup_insert_eq.
          * rewrite Hres by done. rewrite lookup_insert_eq.
            simpl in Hcls. by rewrite Hcls.
        + rewrite Hdomr, dom_insert_L. csimpl.
          by rewrite (assoc_L (∪)), (comm_L (∪) (list_to_set kvs.*1) {[k]}).
        + rewrite Hdomh. apply dom_insert_lookup_L. by rewrite Hl1. }
    intros Hrun. destruct (Hgen ∅ Hrun) as (Hset & Hdomr & Hdomh).
    split; [done|]. split; [|done].
    by rewrite Hdomr, dom_empty_L, (right_id_L ∅ (∪)).
Qed.

(** ** Waiting with a timeout *)

Lemma poll_loop_reads t pipes expects :
  poll_loop t pipes expects = true →
  is_Some (apply_wait_loop pipes expects).
Proof.
  revert expects. induction pipes as [|w pipes IH]; intros [|b expects];
    simpl; try (by eexists).
  intros [Hw Hrest]%andb_true_iff. destruct (IH _ Hrest) as [[[ps rs] ss] ->].
  destruct b; [|by eexists].
  unfold pipe_poll in Hw. unfold pipe_recv.
  destruct (w_pending w) as [|cmd rest]; [done|].
  destruct (w_latency w) as [d|]; [|done].
  apply andb_true_iff in Hw as [_ Hw].
  destruct (worker_step (w_env w) cmd) as [[env' [r s]]|]; [by eexists|done].
Qed.

(** X6.  With a timeout, [apply_wait] never blocks: the pipes are only read
    after the poll has found a reply on every addressed one, so the call
    returns the results or raises, whatever the workers are doing. *)
Theorem apply_wait_timeout_never_blocks c t :
  (apply_wait (Some t) c).1 ≠ Hang.
Proof.
  unfold apply_wait, bind, _assert_is_running.
  destruct (closed c); [done|].
  destruct (bool_decide (_state c ≠ WAITING_APPLY)); [done|].
  simpl. destruct (poll_loop t (parent_pipes c) (expects_result c)) eqn:Hp;
    [|done].
  destruct (poll_loop_reads _ _ _ Hp) as [[[ps rs] ss] ->]. simpl.
  unfold _raise_if_errors. by destruct (first_failure 0 ss).
Qed.

Lemma poll_loop_fast (f : Work) t pipes :
  Forall ready pipes →
  (∀ w, w ∈ pipes → (f (w_env w)).2 ≠ Diverge) →
  (∀ w, w ∈ pipes → ∃ d, w_latency w = Some d ∧ d ≤ t) →
  poll_loop t (pipe_send (Apply f) <$> pipes) (replicate (length pipes) true)
  = true.
Proof.
  induction pipes as [|w pipes IH]; intros Hr Hnd Hfast; [done|].
  apply Forall_cons in Hr as [[Hp _] Hr]. csimpl.
  rewrite IH; [|done|intros; apply Hnd; by right|intros; apply Hfast; by right].
  rewrite andb_true_r. unfold pipe_poll, pipe_send. simpl. rewrite Hp. simpl.
  destruct (Hfast w) as (d & -> & Hd); [by left|].
  rewrite bool_decide_true by done. simpl.
  specialize (Hnd w ltac:(by left)).
  by destruct (f (w_env w)) as [env' [v|err|]].
Qed.

(** X7.  A timeout that every worker meets changes nothing: when each worker
    has its reply on the pipe within [t], [apply(f, timeout=t)] ends
    exactly as [apply(f)] does. *)
Theorem apply_broadcast_within_timeout c (f : Work) t :
  quiescent c →
  (∀ w, w ∈ parent_pipes c → (f (w_env w)).2 ≠ Diverge) →
  (∀ w, w ∈ parent_pipes c → ∃ d, w_latency w = Some d ∧ d ≤ t) →
  apply (Single f) (Some t) c = apply (Single f) None c.
Proof.
  intros (Hc & Hs & Hr) Hnd Hfast.
  assert (apply_async (Single f) c
          = (Return tt,
             MkVec false WAITING_APPLY (replicate (num_envs c) true)
                   (pipe_send (Apply f) <$> parent_pipes c))) as Hsend.
  { unfold apply_async, bind, _assert_is_running. rewrite Hc, Hs. simpl.
    rewrite bool_decide_false by (rewrite length_replicate; lia).
    rewrite apply_async_loop_spec by (by rewrite length_replicate).
    rewrite zip_with_replicate_r_eq by done.
    by rewrite fmap_replicate, Hc. }
  unfold apply, bind. rewrite Hsend.
  unfold apply_wait, bind, _assert_is_running. simpl.
  unfold num_envs. by rewrite (poll_loop_fast f t).
Qed.

(** ** Instances of the further properties *)

Lemma two_workers_return :
  ∀ w, w ∈ parent_pipes (coordinator [env_a; env_b]) →
       ∃ v, (attrgetter "x" (w_env w)).2 = Ok v.
Proof.
  intros w Hw. apply list_elem_of_lookup in Hw as [i Hi].
  do 2 (destruct i as [|i];
        [injection Hi as <-; eexists; vm_compute; reflexivity|]).
  discriminate Hi.
Defined.

Lemma apply_broadcast_witness :
  ∃ results c',
    apply (Single (attrgetter "x")) None (coordinator [env_a; env_b])
    = (Return results, c')
    ∧ Forall2 (λ w v, (attrgetter "x" (w_env w)).2 = Ok v)
              (parent_pipes (coordinator [env_a; env_b])) results
    ∧ parent_pipes c'
      = (λ w, MkWorker (attrgetter "x" (w_env w)).1 [] (w_latency w))
          <$> parent_pipes (coordinator [env_a; env_b])
    ∧ quiescent c'.
Proof.
  apply (apply_broadcast (coordinator [env_a; env_b]) (attrgetter "x")).
  - apply quiescent_coordinator.
  - apply two_workers_return.
Defined.

Lemma no_unit_diverges (fs : list entry) :
  Forall (λ e, match e with
               | Fn f => ∀ env, (f env).2 ≠ Diverge
               | NotCallable _ => True
               end) fs →
  ∀ c i w f, parent_pipes c !! i = Some w → fs !! i = Some (Fn f) →
             (f (w_env w)).2 ≠ Diverge.
Proof.
  intros Hfs c i w f _ Hf. rewrite Forall_lookup in Hfs.
  apply (Hfs i (Fn f) Hf).
Defined.

Lemma attrgetter_halts name env : (attrgetter name env).2 ≠ Diverge.
Proof.
  unfold attrgetter.
  destruct (resolve_attr (heap env) (VRef (this env)) (split_dot name));
    discriminate.
Defined.

Lemma apply_keeps_quiescent_witness :
  quiescent (MkVec false DEFAULT [true; false]
                   [idle_worker env_a; idle_worker env_b])
  ∧ num_envs (MkVec false DEFAULT [true; false]
                    [idle_worker env_a; idle_worker env_b])
    = num_envs (coordinator [env_a; env_b])
  ∧ length [VInt 10; VNone] = num_envs (coordinator [env_a; env_b]).
Proof.
  apply (apply_keeps_quiescent (coordinator [env_a; env_b])
           [Fn (attrgetter "x"); NotCallable VNone]).
  - apply quiescent_coordinator.
  - reflexivity.
  - apply no_unit_diverges.
    constructor; [intros; apply attrgetter_halts|].
    constructor; [exact I|constructor].
  - vm_compute. reflexivity.
Defined.

Lemma apply_failure_collects_all_witness :
  ∃ k c',
    apply (Sequence [Fn failing_work; Fn (attrgetter "x")]) None
          (coordinator [env_a; env_b])
    = (Raise (RemoteExecutionError k), c')
    ∧ Forall ready (parent_pipes c')
    ∧ parent_pipes c'
      = zip_with slot_after (parent_pipes (coordinator [env_a; env_b]))
          [Fn failing_work; Fn (attrgetter "x")].
Proof.
  apply (apply_failure_collects_all (coordinator [env_a; env_b])
           [Fn failing_work; Fn (attrgetter "x")]).
  - apply quiescent_coordinator.
  - reflexivity.
  - apply no_unit_diverges.
    constructor; [intros; discriminate|].
    constructor; [intros; apply attrgetter_halts|constructor].
  - exists 0, (idle_worker env_a), failing_work, (VStr "ValueError").
    split; [reflexivity|]. split; reflexivity.
Defined.

Lemma apply_wrong_length_witness :
  apply (Sequence [Fn (attrgetter "x")]) None (coordinator [env_a; env_b])
  = (Raise (AssertionError "Need a function for each env."),
     coordinator [env_a; env_b]).
Proof.
  apply (apply_wrong_length (coordinator [env_a; env_b])
           [Fn (attrgetter "x")] None); [reflexivity|reflexivity|].
  simpl. discriminate.
Defined.

Lemma timeout_leaves_stale_replies_witness :
  (apply_wait (Some 5)
     (apply_async (Single (attrgetter "x"))
        (MkVec false DEFAULT [] [MkWorker env_a [] (Some 10)])).2).1
  = Raise TimeoutError
  ∧ ∃ results c3,
      apply (Single (hasattr_ "y")) None
        (apply_wait (Some 5)
           (apply_async (Single (attrgetter "x"))
              (MkVec false DEFAULT [] [MkWorker env_a [] (Some 10)])).2).2
      = (Return results, c3)
      ∧ Forall2 (λ w v, (attrgetter "x" (w_env w)).2 = Ok v)
          (parent_pipes (MkVec false DEFAULT [] [MkWorker env_a [] (Some 10)]))
          results
      ∧ parent_pipes c3
        = (λ w, MkWorker (attrgetter "x" (w_env w)).1 [Apply (hasattr_ "y")]
                         (w_latency w))
            <$> parent_pipes
                  (MkVec false DEFAULT [] [MkWorker env_a [] (Some 10)]).
Proof.
  apply (timeout_leaves_stale_replies
           (MkVec false DEFAULT [] [MkWorker env_a [] (Some 10)])
           (attrgetter "x") (hasattr_ "y") 5).
  - split; [reflexivity|]. split; [reflexivity|].
    constructor; [|constructor]. split; [reflexivity|]. exists 10. reflexivity.
  - exists (MkWorker env_a [] (Some 10)), 10.
    split; [left|]. split; [reflexivity|]. simpl. lia.
  - intros w Hw. apply list_elem_of_lookup in Hw as [i Hi].
    destruct i as [|i]; [|discriminate Hi].
    injection Hi as <-. eexists. vm_compute. reflexivity.
Defined.

Lemma apply_at_index_out_of_range_witness :
  apply_at (attrgetter "x") (Int 2) (coordinator [env_a; env_b])
  = (Raise IndexError,
     MkVec false DEFAULT [false; false] [idle_worker env_a; idle_worker env_b])
  ∧ apply_at (attrgetter "x") (Int (-1)) (coordinator [env_a; env_b])
    = (Return VNone,
       MkVec false DEFAULT [false; false]
             [idle_worker env_a; idle_worker env_b]).
Proof.
  split.
  - apply (proj1 (apply_at_index_out_of_range (coordinator [env_a; env_b])
                    (attrgetter "x") 2 eq_refl eq_refl)).
    vm_compute. discriminate.
  - apply (proj2 (apply_at_index_out_of_range (coordinator [env_a; env_b])
                    (attrgetter "x") (-1) eq_refl eq_refl)).
    split; vm_compute; [discriminate|reflexivity].
Defined.

Lemma apply_at_isolates_witness :
  parent_pipes (apply_at failing_work (Indices [0%Z])
                         (coordinator [env_a; env_b])).2 !! 1
  = parent_pipes (coordinator [env_a; env_b]) !! 1.
Proof.
  apply (apply_at_isolates (coordinator [env_a; env_b]) failing_work
           (Indices [0%Z]) 1).
  simpl. intros Hin. apply list_elem_of_singleton in Hin. discriminate Hin.
Defined.

Lemma slice_range_in_bounds_witness :
  Forall (λ x, 0 ≤ x < Z.of_nat 3)%Z [2; 1; 0]%Z.
Proof.
  apply (proj2 (slice_range_in_bounds (Some (-1)%Z) None (Some (-1)%Z) 3)).
  vm_compute. reflexivity.
Defined.

Lemma getitem_mask_witness :
  ∃ l, __getitem__ (KMask [true; false; true])
                   (coordinator [env_a; env_b; env_c])
       = (Return (Indices l), coordinator [env_a; env_b; env_c])
    ∧ StronglySorted Z.lt l
    ∧ ∀ j, Z.of_nat j ∈ l ↔ [true; false; true] !! j = Some true.
Proof.
  apply (proj2 (getitem_mask (coordinator [env_a; env_b; env_c])
                  [true; false; true])).
  reflexivity.
Defined.

Lemma three_workers_ready :
  ∀ j w, parent_pipes (coordinator [env_a; env_b; env_c]) !! j = Some w →
         [true; false; true] !! j = Some true →
         ready w ∧ ∃ v, (attrgetter "x" (w_env w)).2 = Ok v.
Proof.
  intros j w Hw _.
  do 3 (destruct j as [|j];
        [injection Hw as <-; split;
         [apply ready_idle_worker|eexists; vm_compute; reflexivity]|]).
  discriminate Hw.
Defined.

Lemma apply_at_mask_witness :
  ∃ l vs,
    __getitem__ (KMask [true; false; true]) (coordinator [env_a; env_b; env_c])
    = (Return (Indices l), coordinator [env_a; env_b; env_c])
    ∧ (apply_at (attrgetter "x") (Indices l)
                (coordinator [env_a; env_b; env_c])).1
      = Return (VList vs)
    ∧ Forall2 (λ x v, returns_at (coordinator [env_a; env_b; env_c])
                                 (attrgetter "x") (Z.to_nat x) v) l vs
    ∧ length vs = length (filter (λ b, b = true) [true; false; true]).
Proof.
  apply (apply_at_mask (coordinator [env_a; env_b; env_c]) (attrgetter "x")
           [true; false; true] eq_refl eq_refl eq_refl).
  apply three_workers_ready.
Defined.

Lemma set_wrapper_attribute_effect_witness :
  set_wrapper_attribute wrapped_heap (VRef 0) "limit" (VInt 7)
  = Ok (<[0 := Obj "Outer" {[ "env" := VRef 1; "limit" := VInt 7 ]} true]>
          wrapped_heap, VType "Outer")
  ∧ ∃ k l o,
      nth_env wrapped_heap (VRef 0) k = Some (VRef l)
      ∧ wrapped_heap !! l = Some o
      ∧ <[0 := Obj "Outer" {[ "env" := VRef 1; "limit" := VInt 7 ]} true]>
          wrapped_heap
        = <[l := Obj (cls o) (<["limit" := VInt 7]> (attrs o)) (is_wrapper o)]>
            wrapped_heap
      ∧ getattr
          (<[0 := Obj "Outer" {[ "env" := VRef 1; "limit" := VInt 7 ]} true]>
             wrapped_heap) (VRef l) "limit" = Some (VInt 7)
      ∧ VType "Outer" = VType (cls o)
      ∧ dom (<[0 := Obj "Outer" {[ "env" := VRef 1; "limit" := VInt 7 ]} true]>
               wrapped_heap) = dom wrapped_heap
      ∧ ("limit" ≠ "env" →
         ∀ v n, n ≠ "limit" →
           lookup_attribute
             (<[0 := Obj "Outer" {[ "env" := VRef 1; "limit" := VInt 7 ]} true]>
                wrapped_heap) v n
           = lookup_attribute wrapped_heap v n).
Proof.
  split; [vm_compute; reflexivity|].
  apply (set_wrapper_attribute_effect wrapped_heap (VRef 0) "limit" (VInt 7)).
  vm_compute. reflexivity.
Defined.



Lemma plain_cyclic_heap : plain cyclic_heap.
Proof.
  intros l o Hl. unfold cyclic_heap in Hl.
  apply lookup_insert_Some in Hl as [[_ <-]|[_ Hl]]; [done|].
  by apply lookup_singleton_Some in Hl as [_ <-].
Qed.

Lemma set_wrapper_attribute_terminates_witness :
  plain cyclic_heap
  ∧ ∃ target, ∀ fuel, size cyclic_heap < fuel →
      set_wrapper_loop fuel cyclic_heap "limit" (VRef 0) [] = Ok target.
Proof.
  split; [apply plain_cyclic_heap|].
  apply (proj2 (proj2 (set_wrapper_attribute_terminates
                         cyclic_heap (VRef 0) "limit" (VInt 7)))).
  apply plain_cyclic_heap.
Defined.


Lemma set_wrapper_attributes_sets_all_witness :
  (∀ k v, (k, v) ∈ [("limit", VInt 7); ("tag", VInt 1)] →
     ∃ l o,
       (set_wrapper_attributes wrapped_heap (VRef 0)
          [("limit", VInt 7); ("tag", VInt 1)] ∅).1 !! l = Some o
       ∧ attrs o !! k = Some v
       ∧ ({[ "limit" := VType "Outer"; "tag" := VType "Base" ]}
            : gmap string value) !! k = Some (VType (cls o)))
  ∧ dom ({[ "limit" := VType "Outer"; "tag" := VType "Base" ]}
           : gmap string value)
    = list_to_set [("limit", VInt 7); ("tag", VInt 1)].*1
  ∧ dom (set_wrapper_attributes wrapped_heap (VRef 0)
           [("limit", VInt 7); ("tag", VInt 1)] ∅).1
    = dom wrapped_heap.
Proof.
  apply (proj2 (set_wrapper_attributes_sets_all wrapped_heap (VRef 0)
                  [("limit", VInt 7); ("tag", VInt 1)])).
  - apply (bool_decide_unpack _). vm_compute. exact I.
  - vm_compute. reflexivity.
Defined.

Lemma apply_broadcast_within_timeout_witness :
  apply (Single (attrgetter "x")) (Some 3) (coordinator [env_a; env_b])
  = apply (Single (attrgetter "x")) None (coordinator [env_a; env_b]).
Proof.
  apply (apply_broadcast_within_timeout (coordinator [env_a; env_b])
           (attrgetter "x") 3).
  - apply quiescent_coordinator.
  - intros w _. apply attrgetter_halts.
  - intros w Hw. apply list_elem_of_lookup in Hw as [i Hi].
    do 2 (destruct i as [|i];
          [injection Hi as <-; exists 0; split; [reflexivity|simpl; lia]|]).
    discriminate Hi.
Defined.
